(** * Doubly linked list of dsa.js: a shallow embedding and its properties

    Source: [src/data-structures/linked-lists/linked-list.js].

    The JavaScript class mutates heap-allocated [Node] objects through
    [previous]/[next] references.  The embedding keeps that shape: nodes live
    in a finite map from locations to records, the list object is a record of
    its three fields, and every method is a computation in a small
    state-and-failure monad.  A method that dereferences [null] raises
    [TypeError] in JavaScript and returns [Throw] here; the [for] loop of
    [find] is bounded by an explicit fuel argument. *)

From Stdlib Require Import ZArith String Ascii.
From stdpp Require Import gmap strings list fin_maps.

Local Open Scope Z_scope.

(** ** JavaScript values *)

Abbreviation loc := positive.

(** The list object has a field called [last]; the function on sequences
    keeps a name of its own. *)
Abbreviation list_last := stdpp.list_basics.list.last.

(** The values that the list stores, receives and returns.  Numbers are the
    integers that a double holds exactly (sizes and positions are such)
    together with [NaN]; strings are ASCII texts; objects are node
    references. *)
Inductive jsval : Type :=
  | VUndefined
  | VNull
  | VBool (b : bool)
  | VNum (n : Z)
  | VNaN
  | VStr (s : string)
  | VNode (l : loc).

(** ToBoolean. *)
Definition truthy (v : jsval) : bool :=
  match v with
  | VUndefined | VNull | VNaN => false
  | VBool b => b
  | VNum n => negb (n =? 0)
  | VStr s => negb (String.eqb s "")
  | VNode _ => true
  end.

(** The [===] operator. *)
Definition strict_eq (a b : jsval) : bool :=
  match a, b with
  | VUndefined, VUndefined => true
  | VNull, VNull => true
  | VBool x, VBool y => Bool.eqb x y
  | VNum x, VNum y => x =? y
  | VStr x, VStr y => String.eqb x y
  | VNode x, VNode y => Pos.eqb x y
  | _, _ => false
  end.

(** [a || b]. *)
Definition js_or (a b : jsval) : jsval := if truthy a then a else b.

(** A parameter declared [p = 0] takes the default when the caller passes
    [undefined] (or nothing). *)
Definition default0 (v : jsval) : jsval :=
  match v with VUndefined => VNum 0 | _ => v end.

(** [parseInt(v, 10)] of the host language: leading white space is skipped,
    an optional sign is read, then the longest run of decimal digits; no
    digit at all gives [NaN].  A non-string argument is first converted to a
    string: a text that starts with a letter or a bracket for the kinds of
    value other than numbers, and for a number the numeral described
    below. *)
Definition is_ws (c : ascii) : bool :=
  let n := N_of_ascii c in
  (n =? 32)%N || ((9 <=? n)%N && (n <=? 13)%N).

Fixpoint skip_ws (s : string) : string :=
  match s with
  | String c s' => if is_ws c then skip_ws s' else s
  | EmptyString => s
  end.

Definition digit_of (c : ascii) : option Z :=
  let n := Z.of_N (N_of_ascii c) in
  if (48 <=? n) && (n <=? 57) then Some (n - 48) else None.

Fixpoint digits (s : string) (acc : option Z) : option Z :=
  match s with
  | String c s' =>
      match digit_of c with
      | Some d => digits s' (Some (10 * default 0 acc + d))
      | None => acc
      end
  | EmptyString => acc
  end.

Definition parseInt_string (s : string) : jsval :=
  let s := skip_ws s in
  let '(sign, s) :=
    match s with
    | String "-" s' => (-1, s')
    | String "+" s' => (1, s')
    | _ => (1, s)
    end in
  match digits s None with
  | Some n => VNum (sign * n)
  | None => VNaN
  end.

(** The double nearest to a natural number, a tie going to the even
    significand of 53 bits: the number that a numeric literal denotes.  A
    natural number below 2^53 is a double. *)
Definition to_double (n : Z) : Z :=
  if n <? 2 ^ 53 then n
  else
    let e := Z.log2 n - 52 in
    let q := n / 2 ^ e in
    let r := n mod 2 ^ e in
    let half := 2 ^ (e - 1) in
    let m := if r <? half then q
             else if half <? r then q + 1
             else if Z.even q then q else q + 1 in
    m * 2 ^ e.

(** The first decimal digit of [x], and the power of ten it stands at. *)
Fixpoint leading (fuel : nat) (x p : Z) : Z * Z :=
  match fuel with
  | O => (x, p)
  | S fuel' => if x <? 10 then (x, p) else leading fuel' (x / 10) (10 * p)
  end.

(** The first digit of the numeral of a double [x] from 10^21 on.  That
    numeral is in exponent notation, [d.ddde+N], and has the fewest digits
    that still read back as [x].  Its first digit is the first digit of
    [x], unless the one-digit numeral next above [x] reads back as [x]
    already, as [1e+23] does for 99999999999999991611392. *)
Definition exponent_digit (x : Z) : Z :=
  let '(d, p) := leading (S (Z.to_nat (Z.log2 x))) x 1 in
  if to_double ((d + 1) * p) =? x
  then (if d + 1 =? 10 then 1 else d + 1)
  else d.

(** [parseInt] of a number reads the numeral of the number.  Below 10^21 in
    magnitude that is the decimal numeral, which reads back as the number
    itself.  From 10^21 on it is [d.ddde+N], of which [parseInt] reads the
    sign and the digit [d], stopping at the point or at the [e]: so
    [parseInt(1e21, 10)] is 1.  From 2^1024 on a literal denotes [Infinity],
    whose numeral has no digit. *)
Definition parseInt_num (n : Z) : jsval :=
  let x := to_double (Z.abs n) in
  if 2 ^ 1024 <=? x then VNaN
  else if x <? 10 ^ 21 then VNum (Z.sgn n * x)
  else VNum (Z.sgn n * exponent_digit x).

Definition parseInt (v : jsval) : jsval :=
  match v with
  | VNum n => parseInt_num n
  | VStr s => parseInt_string s
  | VUndefined | VNull | VBool _ | VNaN | VNode _ => VNaN
  end.

(** ** Nodes, the list object and the heap *)

(** Modelled from the spec: [./node] is not part of the sources at hand; a
    node is a plain record whose constructor stores the value and sets both
    links to [null]. *)
Record Node : Type := mkNode {
  value : jsval;
  previous : option loc;
  next : option loc
}.

Definition Node_constructor (v : jsval) : Node :=
  {| value := v; previous := None; next := None |}.

(** The three fields of a [LinkedList] object; [null] is [None]. *)
Record LinkedList : Type := mkList {
  first : option loc;
  last : option loc;
  size : Z
}.

(** [constructor()]. *)
Definition constructor : LinkedList :=
  {| first := None; last := None; size := 0 |}.

(** The state of a program that uses one list: the nodes created so far,
    by location, and the list object. *)
Record state : Type := mkState {
  heap : gmap loc Node;
  this : LinkedList
}.

(** [new LinkedList()] before any node exists. *)
Definition empty_state : state := {| heap := ∅; this := constructor |}.

(** ** The monad of methods *)

(** What running a method gives. *)
Inductive outcome (A : Type) : Type :=
  | Ret (a : A) (s : state)  (* normal completion *)
  | Throw                    (* TypeError: a property of null or undefined *)
  | Dangling                 (* a reference to a node that was never created *)
  | OutOfFuel.               (* the loop bound was reached *)
Arguments Ret {A} a s.
Arguments Throw {A}.
Arguments Dangling {A}.
Arguments OutOfFuel {A}.

Definition M (A : Type) : Type := state → outcome A.

Global Instance M_ret : MRet M := λ A a s, Ret a s.
Global Instance M_bind : MBind M := λ A B k m s,
  match m s with
  | Ret a s' => k a s'
  | Throw => Throw
  | Dangling => Dangling
  | OutOfFuel => OutOfFuel
  end.

Definition throw {A} : M A := λ _, Throw.

(** Reading and writing the fields of [this]. *)
Definition get_first : M (option loc) := λ s, Ret (first (this s)) s.
Definition get_last : M (option loc) := λ s, Ret (last (this s)) s.
Definition get_size : M Z := λ s, Ret (size (this s)) s.

Definition set_first (o : option loc) : M unit := λ s,
  Ret () {| heap := heap s;
            this := {| first := o; last := last (this s); size := size (this s) |} |}.
Definition set_last (o : option loc) : M unit := λ s,
  Ret () {| heap := heap s;
            this := {| first := first (this s); last := o; size := size (this s) |} |}.
Definition set_size (n : Z) : M unit := λ s,
  Ret () {| heap := heap s;
            this := {| first := first (this s); last := last (this s); size := n |} |}.

(** Reading and writing the fields of a node. *)
Definition load (l : loc) : M Node := λ s,
  match heap s !! l with
  | Some n => Ret n s
  | None => Dangling
  end.
Definition store (l : loc) (n : Node) : M unit := λ s,
  Ret () {| heap := <[l := n]> (heap s); this := this s |}.

Definition get_value (l : loc) : M jsval := n ← load l; mret (value n).
Definition get_previous (l : loc) : M (option loc) := n ← load l; mret (previous n).
Definition get_next (l : loc) : M (option loc) := n ← load l; mret (next n).
Definition set_previous (l : loc) (o : option loc) : M unit :=
  n ← load l; store l {| value := value n; previous := o; next := next n |}.
Definition set_next (l : loc) (o : option loc) : M unit :=
  n ← load l; store l {| value := value n; previous := previous n; next := o |}.

(** A property access [o.f] where [o] is [null] throws. *)
Definition deref (o : option loc) : M loc :=
  match o with
  | Some l => mret l
  | None => throw
  end.

(** [new Node(value)]: a location that the heap does not use yet. *)
Definition new_Node (v : jsval) : M loc := λ s,
  let l := fresh (dom (heap s)) in
  Ret l {| heap := <[l := Node_constructor v]> (heap s); this := this s |}.

(** ** The methods of [LinkedList] *)

(** [addFirst(value)] *)
Definition addFirst (v : jsval) : M loc :=
  newNode ← new_Node v;
  f ← get_first;
  set_next newNode f;;
  match f with
  | Some f' => set_previous f' (Some newNode)
  | None => set_last (Some newNode)
  end;;
  set_first (Some newNode);;
  n ← get_size; set_size (n + 1);;
  mret newNode.

(** [addLast(value)] *)
Definition addLast (v : jsval) : M loc :=
  newNode ← new_Node v;
  f ← get_first;
  match f with
  | Some _ =>
      l ← get_last;
      set_previous newNode l;;
      l ← get_last; l' ← deref l;
      set_next l' (Some newNode);;
      set_last (Some newNode)
  | None =>
      set_first (Some newNode);;
      set_last (Some newNode)
  end;;
  n ← get_size; set_size (n + 1);;
  mret newNode.

(** A callback receives the node and its position, and may do anything a
    method can. *)
Definition callback : Type := loc → Z → M jsval.

(** The loop of [find]: one unit of fuel for each test of [current]. *)
Fixpoint find_loop (fuel : nat) (cb : callback) (current : option loc)
    (position : Z) : M jsval :=
  match fuel with
  | O => λ _, OutOfFuel
  | S fuel' =>
      match current with
      | None => mret VUndefined
      | Some c =>
          result ← cb c position;
          if negb (strict_eq result VUndefined) then mret result
          else nx ← get_next c; find_loop fuel' cb nx (position + 1)
      end
  end.

(** [find(callback)] *)
Definition find (fuel : nat) (cb : callback) : M jsval :=
  f ← get_first; find_loop fuel cb f 0.

(** [indexOf(value)] and the arrow function it passes to [find]. *)
Definition indexOf_cb (v : jsval) : callback := λ current position,
  cv ← get_value current;
  if strict_eq cv v then mret (VNum position) else mret VUndefined.

Definition indexOf (fuel : nat) (v : jsval) : M jsval :=
  find fuel (indexOf_cb v).

(** [get(index = 0)] and the arrow function it passes to [find]. *)
Definition get_cb (index : jsval) : callback := λ current position,
  if strict_eq (VNum position) index then mret (VNode current)
  else mret VUndefined.

Definition get (fuel : nat) (index : jsval) : M jsval :=
  find fuel (get_cb (default0 index)).

(** [current.previous.next] and the like, for a truthy [current]: a node
    gives its fields; any other truthy value has no [previous] or [next],
    and the access through that [undefined] throws. *)
Definition as_node (v : jsval) : M loc :=
  match v with
  | VNode l => mret l
  | _ => throw
  end.

(** [current.value] for a truthy [current]: the value of a node, and
    [undefined] for any other truthy value, which has no such property. *)
Definition value_of (v : jsval) : M jsval :=
  match v with
  | VNode l => get_value l
  | _ => mret VUndefined
  end.

(** [add(value, position = 0)] *)
Definition add (fuel : nat) (v : jsval) (position : jsval) : M jsval :=
  let position := default0 position in
  if strict_eq position (VNum 0) then l ← addFirst v; mret (VNode l)
  else
    n ← get_size;
    if strict_eq position (VNum n) then l ← addLast v; mret (VNode l)
    else
      current ← get fuel position;
      if truthy current then
        c ← as_node current;
        newNode ← new_Node v;
        cp ← get_previous c;
        set_previous newNode cp;;
        set_next newNode (Some c);;
        cp ← get_previous c; p ← deref cp;
        set_next p (Some newNode);;
        cn ← get_next c;
        match cn with
        | Some cn' => set_previous cn' (Some newNode)
        | None => mret ()
        end;;
        n ← get_size; set_size (n + 1);;
        mret (VNode newNode)
      else mret VUndefined.

(** [head && head.value]: [null] when the anchor is [null]. *)
Definition value_of_anchor (o : option loc) : M jsval :=
  match o with
  | Some l => get_value l
  | None => mret VNull
  end.

(** [removeFirst()] *)
Definition removeFirst : M jsval :=
  head ← get_first;
  match head with
  | Some h =>
      hn ← get_next h;
      set_first hn;;
      f ← get_first;
      match f with
      | Some f' => set_previous f' None
      | None => mret ()
      end;;
      n ← get_size; set_size (n - 1)
  | None => set_last None
  end;;
  value_of_anchor head.

(** [removeLast()] *)
Definition removeLast : M jsval :=
  tail ← get_last;
  match tail with
  | Some t =>
      tp ← get_previous t;
      set_last tp;;
      l ← get_last;
      match l with
      | Some l' => set_next l' None
      | None => set_first None
      end;;
      n ← get_size; set_size (n - 1)
  | None => mret ()
  end;;
  value_of_anchor tail.

(** [removeByPosition(position = 0)] *)
Definition removeByPosition (fuel : nat) (position : jsval) : M jsval :=
  let position := default0 position in
  current ← get fuel position;
  (if strict_eq position (VNum 0) then removeFirst;; mret ()
   else
     n ← get_size;
     if strict_eq position (VNum (n - 1)) then removeLast;; mret ()
     else if truthy current then
       c ← as_node current;
       cp ← get_previous c; p ← deref cp;
       cn ← get_next c;
       set_next p cn;;
       cn ← get_next c; nx ← deref cn;
       cp ← get_previous c;
       set_previous nx cp;;
       n ← get_size; set_size (n - 1)
     else mret ());;
  if truthy current then value_of current else mret current.

(** The argument of [remove]: a function, or any other value. *)
Inductive remove_arg : Type :=
  | ArgFunction (f : callback)
  | ArgValue (v : jsval).

(** [remove(callbackOrIndex)] and the arrow function it passes to [find]. *)
Definition remove_cb (f : callback) : callback := λ node index,
  r ← f node index;
  if truthy r then mret (VNum index) else mret VUndefined.

Definition remove (fuel : nat) (callbackOrIndex : remove_arg) : M jsval :=
  match callbackOrIndex with
  | ArgValue v => removeByPosition fuel (js_or (parseInt v) (VNum 0))
  | ArgFunction f =>
      position ← find fuel (remove_cb f);
      if negb (strict_eq position VUndefined) then removeByPosition fuel position
      else mret (VBool false)
  end.

(** ** Lists built by a sequence of calls *)

(** The state after [addLast] of each value in turn, from the empty list. *)
Fixpoint build (vs : list jsval) (s : state) : state :=
  match vs with
  | [] => s
  | v :: vs' =>
      match addLast v s with
      | Ret _ s' => build vs' s'
      | _ => s
      end
  end.

Definition of_values (vs : list jsval) : state := build vs empty_state.

(** The lists of the examples, and a predicate as a caller would write it:
    [node => node.value === v]. *)
Definition one_element : state := of_values [VNum 1].
Definition two_elements : state := of_values [VNum 1; VNum 2].
Definition three_elements : state := of_values [VNum 1; VNum 2; VNum 3].
Definition holds_undefined : state := of_values [VUndefined].
Definition holds_null : state := of_values [VNull].

Definition value_is (v : jsval) : callback := λ node _,
  nv ← get_value node; mret (VBool (strict_eq nv v)).

(** ** The invariants of the list *)

(** [reach h o n]: node [n] is met when following [next] from [o]. *)
Inductive reach (h : gmap loc Node) : option loc → loc → Prop :=
  | reach_here l : reach h (Some l) l
  | reach_next l nd m :
      h !! l = Some nd → reach h (next nd) m → reach h (Some l) m.

(** The live nodes of a list are those reached from [first]. *)
Definition live (s : state) (n : loc) : Prop :=
  reach (heap s) (first (this s)) n.

(** [seg h o ls e]: following [next] from [o] visits exactly the nodes [ls]
    and then meets [e]. *)
Fixpoint seg (h : gmap loc Node) (o : option loc) (ls : list loc)
    (e : option loc) : Prop :=
  match ls with
  | [] => o = e
  | l :: ls' => o = Some l ∧ ∃ nd, h !! l = Some nd ∧ seg h (next nd) ls' e
  end.

(** A chain is a segment that ends with [null]. *)
Definition chain (h : gmap loc Node) (o : option loc) (ls : list loc) : Prop :=
  seg h o ls None.

(** Invariant 1: [size == 0] iff [first == null] iff [last == null]. *)
Definition anchors_agree (t : LinkedList) : Prop :=
  (size t = 0 ↔ first t = None) ∧ (first t = None ↔ last t = None).

(** Invariant 2: for every live node [n], if [n.next == m] then
    [m.previous == n], and if [n.previous == m] then [m.next == n].  The
    nodes meant are the live ones: a node that was removed keeps the links
    it had. *)
Definition doubly_linked (s : state) : Prop :=
  ∀ n nd, live s n → heap s !! n = Some nd →
    (∀ m, next nd = Some m →
       ∃ md, heap s !! m = Some md ∧ previous md = Some n) ∧
    (∀ m, previous nd = Some m →
       ∃ md, heap s !! m = Some md ∧ next md = Some n).

(** Invariant 3: [first.previous == null] and [last.next == null]. *)
Definition ends_closed (s : state) : Prop :=
  (∀ f, first (this s) = Some f →
     ∃ nd, heap s !! f = Some nd ∧ previous nd = None) ∧
  (∀ l, last (this s) = Some l →
     ∃ nd, heap s !! l = Some nd ∧ next nd = None).

(** Invariant 4: the chain from [first] has [size] nodes, ends with [last]
    and is followed by [null]. *)
Definition counted (s : state) : Prop :=
  ∃ ls, chain (heap s) (first (this s)) ls ∧
        size (this s) = Z.of_nat (length ls) ∧
        last (this s) = list_last ls.

Definition invariants (s : state) : Prop :=
  anchors_agree (this s) ∧ doubly_linked s ∧ ends_closed s ∧ counted s.

(** The same, as a representation predicate: the state holds the sequence of
    nodes [ls].  [backlinks h p ls] says that each node of [ls] points back
    to the one before it, the first of them to [p]. *)
Fixpoint backlinks (h : gmap loc Node) (p : option loc) (ls : list loc) : Prop :=
  match ls with
  | [] => True
  | l :: ls' =>
      (∃ nd, h !! l = Some nd ∧ previous nd = p) ∧ backlinks h (Some l) ls'
  end.

Definition dll (s : state) (ls : list loc) : Prop :=
  chain (heap s) (first (this s)) ls ∧
  backlinks (heap s) None ls ∧
  last (this s) = list_last ls ∧
  size (this s) = Z.of_nat (length ls).

(** A checker for [dll], to settle it on concrete states. *)
Fixpoint chainb (h : gmap loc Node) (o p : option loc) (ls : list loc) : bool :=
  match ls with
  | [] => bool_decide (o = None)
  | l :: ls' =>
      bool_decide (o = Some l) &&
      match h !! l with
      | Some nd => bool_decide (previous nd = p) && chainb h (next nd) (Some l) ls'
      | None => false
      end
  end.

Definition dllb (s : state) (ls : list loc) : bool :=
  chainb (heap s) (first (this s)) None ls &&
  bool_decide (last (this s) = list_last ls) &&
  (size (this s) =? Z.of_nat (length ls)).

(** ** Specification-level definitions *)

(** The traversal as the specification words it: the callback is called on
    each node of [ls] in turn, with positions counted from [pos]; the first
    result other than [undefined] is returned and no later node is visited;
    [undefined] is returned when the nodes are exhausted. *)
Fixpoint find_spec (cb : callback) (ls : list loc) (pos : Z) : M jsval :=
  match ls with
  | [] => mret VUndefined
  | l :: ls' =>
      r ← cb l pos;
      if negb (strict_eq r VUndefined) then mret r
      else find_spec cb ls' (pos + 1)
  end.

(** A callback that does not itself change the list or its nodes. *)
Definition nonmutating (cb : callback) : Prop :=
  ∀ l i s r s', cb l i s = Ret r s' → s' = s.

(** Two heaps whose nodes store the same values. *)
Definition same_values (h h' : gmap loc Node) : Prop :=
  ∀ k, value <$> h' !! k = value <$> h !! k.

(** The three query operations. *)
Inductive query : Type :=
  | QGet (index : jsval)
  | QIndexOf (v : jsval)
  | QFind (cb : callback).

Definition run_query (fuel : nat) (q : query) : M jsval :=
  match q with
  | QGet index => get fuel index
  | QIndexOf v => indexOf fuel v
  | QFind cb => find fuel cb
  end.

(** The callback that a query hands to [find]. *)
Definition query_callback (q : query) : callback :=
  match q with
  | QGet index => get_cb (default0 index)
  | QIndexOf v => indexOf_cb v
  | QFind cb => cb
  end.

Definition query_nonmutating (q : query) : Prop :=
  match q with
  | QFind cb => nonmutating cb
  | QGet _ | QIndexOf _ => True
  end.

(** The callback of the caller answers on every live node. *)
Definition query_answers (q : query) (s : state) : Prop :=
  match q with
  | QFind cb => ∀ l i, live s l → ∃ r, cb l i s = Ret r s
  | QGet _ | QIndexOf _ => True
  end.

(** What the argument of [remove] resolves to on the nodes [ls]: the index
    of a node, or nothing.  A value resolves to the integer it parses as,
    zero when it parses as none; a function resolves to the first position
    where it answers a truthy value, having answered falsy ones before. *)
Definition resolves (s : state) (ls : list loc) (arg : remove_arg)
    (r : option nat) : Prop :=
  match arg, r with
  | ArgValue v, Some k =>
      js_or (parseInt v) (VNum 0) = VNum (Z.of_nat k) ∧ (k < length ls)%nat
  | ArgValue v, None =>
      ∃ i, js_or (parseInt v) (VNum 0) = VNum i ∧
           (i < 0 ∨ Z.of_nat (length ls) ≤ i)
  | ArgFunction f, Some k =>
      (∃ l x, ls !! k = Some l ∧ f l (Z.of_nat k) s = Ret x s ∧
              truthy x = true) ∧
      (∀ j l, (j < k)%nat → ls !! j = Some l →
         ∃ x, f l (Z.of_nat j) s = Ret x s ∧ truthy x = false)
  | ArgFunction f, None =>
      ∀ j l, ls !! j = Some l →
        ∃ x, f l (Z.of_nat j) s = Ret x s ∧ truthy x = false
  end.

(** ** The rest of the class *)

(** The aliases set on the prototype. *)
Definition push : jsval → M loc := addLast.
Definition pop : M jsval := removeLast.
Definition unshift : jsval → M loc := addFirst.
Definition shift : M jsval := removeFirst.

(** The generator object that [[Symbol.iterator]()] returns: not started,
    suspended at the [yield] with its two loop variables, or finished. *)
Inductive generator : Type :=
  | GenStart
  | GenSuspended (node : loc) (position : Z)
  | GenDone.

(** The loop test [node], and the [yield { node, position }] after it. *)
Definition gen_test (node : option loc) (position : Z) :
    option (loc * Z) * generator :=
  match node with
  | Some n => (Some (n, position), GenSuspended n position)
  | None => (None, GenDone)
  end.

(** One call of [next()] on the generator: the pair it yields, if any, and
    the generator afterwards.  [this.first] is read at the first call and
    [node.next] when the generator is resumed. *)
Definition iterator_next (g : generator) : M (option (loc * Z) * generator) :=
  match g with
  | GenStart => f ← get_first; mret (gen_test f 0)
  | GenSuspended node position =>
      nx ← get_next node; mret (gen_test nx (position + 1))
  | GenDone => mret (None, GenDone)
  end.

(** [[...g]]: [next()] until the generator is done; one unit of fuel for
    each call. *)
Fixpoint spread_loop (fuel : nat) (g : generator) : M (list (loc * Z)) :=
  match fuel with
  | O => λ _, OutOfFuel
  | S fuel' =>
      r ← iterator_next g;
      match r.1 with
      | Some x => rest ← spread_loop fuel' r.2; mret (x :: rest)
      | None => mret []
      end
  end.

(** [[...this]] *)
Definition spread (fuel : nat) : M (list (loc * Z)) := spread_loop fuel GenStart.

Section rendering.
(** [util.inspect] belongs to the host's library; it is a parameter here. *)
Variable inspect : jsval → string.

(** [parts.map(n => util.inspect(n.node.value))] *)
Fixpoint inspect_parts (parts : list (loc * Z)) : M (list string) :=
  match parts with
  | [] => mret []
  | n :: rest =>
      v ← get_value n.1;
      strs ← inspect_parts rest;
      mret (inspect v :: strs)
  end.

(** [toString()] *)
Definition toString (fuel : nat) : M string :=
  parts ← spread fuel;
  strs ← inspect_parts parts;
  mret (String.concat " -> " strs).
End rendering.

(** ** The list as a sequence of values *)

(** The values that the nodes [ls] store in the heap [h]. *)
Definition values (h : gmap loc Node) (ls : list loc) : list (option jsval) :=
  (λ l, value <$> h !! l) <$> ls.

(** [shows s vs]: a forward traversal of the list meets the values [vs]. *)
Definition shows (s : state) (vs : list jsval) : Prop :=
  ∃ ls, chain (heap s) (first (this s)) ls ∧ values (heap s) ls = Some <$> vs.

(** [holds s vs]: the list satisfies its invariants and shows [vs]. *)
Definition holds (s : state) (vs : list jsval) : Prop :=
  invariants s ∧ shows s vs.

(** The position of the first value of [vs] that is [=== v]. *)
Fixpoint index_of (v : jsval) (vs : list jsval) : option nat :=
  match vs with
  | [] => None
  | x :: rest => if strict_eq x v then Some O else S <$> index_of v rest
  end.

(** A position argument that names no node of a list of [n] nodes: an
    integer out of range, or a value that is not a number at all. *)
Definition names_no_node (n : Z) (position : jsval) : Prop :=
  match default0 position with
  | VNum i => i < 0 ∨ n ≤ i
  | _ => True
  end.

(** A call that adds a value at one end. *)
Inductive addition : Type :=
  | AddFirst (v : jsval)
  | AddLast (v : jsval).

Fixpoint run_additions (ops : list addition) : M unit :=
  match ops with
  | [] => mret ()
  | AddFirst v :: rest => addFirst v;; run_additions rest
  | AddLast v :: rest => addLast v;; run_additions rest
  end.

(** The sequence that the additions make of [vs]. *)
Fixpoint added (ops : list addition) (vs : list jsval) : list jsval :=
  match ops with
  | [] => vs
  | AddFirst v :: rest => added rest (v :: vs)
  | AddLast v :: rest => added rest (vs ++ [v])
  end.

(** The same call [n] times, and what the calls returned. *)
Fixpoint times (n : nat) (m : M jsval) : M (list jsval) :=
  match n with
  | O => mret []
  | S n' => v ← m; vs ← times n' m; mret (v :: vs)
  end.

(** The pairs that an iteration yields for the nodes [ls], the first of
    them at position [p]. *)
Definition numbered (p : Z) (ls : list loc) : list (loc * Z) :=
  imap (λ i l, (l, p + Z.of_nat i)) ls.

(** A rendering of the numbers 1 and 2, for the examples. *)
Definition example_inspect (v : jsval) : string :=
  match v with
  | VNum 1 => "1"
  | VNum 2 => "2"
  | _ => "?"
  end.

(** ** Running the monad *)

Lemma run_bind {A B} (m : M A) (k : A → M B) (s : state) :
  (m ≫= k) s =
  match m s with
  | Ret a s' => k a s'
  | Throw => Throw
  | Dangling => Dangling
  | OutOfFuel => OutOfFuel
  end.
Proof. reflexivity. Qed.

Lemma run_ret {A} (a : A) (s : state) : (mret a : M A) s = Ret a s.
Proof. reflexivity. Qed.

(** ** Segments and back links *)

Section segments.
Implicit Types (h : gmap loc Node) (o e p : option loc) (ls : list loc).

Lemma seg_app h o l1 l2 e :
  seg h o (l1 ++ l2) e ↔ ∃ m, seg h o l1 m ∧ seg h m l2 e.
Proof.
  revert o. induction l1 as [|l l1 IH]; intros o; simpl.
  - split; [intros H; exists o; done | intros (m & -> & H); done].
  - split.
    + intros (-> & nd & Hl & Hs). apply IH in Hs as (m & H1 & H2).
      exists m. split; [|done]. split; [done|]. by exists nd.
    + intros (m & (-> & nd & Hl & H1) & H2). split; [done|].
      exists nd. split; [done|]. apply IH. by exists m.
Qed.

Lemma seg_ext h h' o ls e :
  (∀ l, l ∈ ls → next <$> h' !! l = next <$> h !! l) →
  seg h o ls e → seg h' o ls e.
Proof.
  revert o. induction ls as [|l ls IH]; intros o Hx; simpl; [done|].
  intros (-> & nd & Hl & Hs). split; [done|].
  specialize (Hx l (list_elem_of_here _ _)) as Hn. rewrite Hl in Hn.
  destruct (h' !! l) as [nd'|] eqn:Hl'; [|done].
  simpl in Hn. injection Hn as Hn. exists nd'. split; [done|].
  rewrite Hn. apply IH; [|done].
  intros k Hk. apply Hx. by apply list_elem_of_further.
Qed.

Lemma backlinks_ext h h' p ls :
  (∀ l, l ∈ ls → previous <$> h' !! l = previous <$> h !! l) →
  backlinks h p ls → backlinks h' p ls.
Proof.
  revert p. induction ls as [|l ls IH]; intros p Hx; simpl; [done|].
  intros ((nd & Hl & Hp) & Hb). split.
  - specialize (Hx l (list_elem_of_here _ _)) as Hn. rewrite Hl in Hn.
    destruct (h' !! l) as [nd'|] eqn:Hl'; [|done].
    simpl in Hn. injection Hn as Hn. exists nd'. split; congruence.
  - apply IH; [|done]. intros k Hk. apply Hx. by apply list_elem_of_further.
Qed.

Lemma backlinks_app h p l1 l2 :
  backlinks h p (l1 ++ l2) ↔
  backlinks h p l1 ∧ backlinks h (from_option Some p (list_last l1)) l2.
Proof.
  revert p. induction l1 as [|l l1 IH]; intros p; simpl.
  - tauto.
  - rewrite IH.
    replace (from_option Some p (list_last (l :: l1)))
      with (from_option Some (Some l) (list_last l1))
      by (rewrite last_cons; destruct (list_last l1); reflexivity).
    tauto.
Qed.

Lemma seg_det h o ls ls' :
  seg h o ls None → seg h o ls' None → ls = ls'.
Proof.
  revert o ls'. induction ls as [|l ls IH]; intros o [|l' ls']; simpl.
  - done.
  - intros -> (? & _); done.
  - intros (-> & _) ?; done.
  - intros (-> & nd & Hl & Hs) (? & nd' & Hl' & Hs'). simplify_eq.
    f_equal. by eapply IH.
Qed.

Lemma seg_NoDup h o ls : seg h o ls None → NoDup ls.
Proof.
  revert o. induction ls as [|l ls IH]; intros o; simpl.
  - constructor.
  - intros (-> & nd & Hl & Hs). constructor; [|by eapply IH].
    intros Hin. apply list_elem_of_split in Hin as (l1 & l2 & ->).
    pose proof Hs as Hs'. apply seg_app in Hs' as (m & _ & Hm).
    pose proof Hm as (-> & nd' & Hl' & Hs2). simplify_eq.
    pose proof (seg_det _ _ _ _ Hs Hs2) as Heq.
    apply (f_equal length) in Heq. rewrite length_app in Heq.
    simpl in Heq. lia.
Qed.

Lemma seg_is_Some h o ls e l : seg h o ls e → l ∈ ls → is_Some (h !! l).
Proof.
  revert o. induction ls as [|k ls IH]; intros o; simpl.
  - intros _ Hin. by apply elem_of_nil in Hin.
  - intros (-> & nd & Hl & Hs) Hin. apply elem_of_cons in Hin as [->|Hin].
    + by exists nd.
    + by eapply IH.
Qed.

Lemma seg_reach h o ls n : seg h o ls None → reach h o n ↔ n ∈ ls.
Proof.
  intros Hs. split.
  - intros Hr. revert ls Hs. induction Hr as [l|l nd m Hl Hr IH]; intros ls Hs.
    + destruct ls as [|k ls]; simpl in Hs; [done|].
      destruct Hs as (? & _). simplify_eq. apply list_elem_of_here.
    + destruct ls as [|k ls]; simpl in Hs; [done|].
      destruct Hs as (? & nd' & Hl' & Hs). simplify_eq.
      apply list_elem_of_further. by apply IH.
  - revert o Hs. induction ls as [|k ls IH]; intros o Hs Hin.
    + by apply elem_of_nil in Hin.
    + destruct Hs as (-> & nd & Hl & Hs).
      apply elem_of_cons in Hin as [->|Hin]; [constructor|].
      eapply reach_next; [done|]. by apply IH.
Qed.
End segments.

(** ** The invariants and the representation predicate agree *)

Section representation.
Implicit Types (h : gmap loc Node) (o e p : option loc) (ls : list loc).

Lemma seg_lookup h o ls e i l :
  seg h o ls e → ls !! i = Some l →
  ∃ nd, h !! l = Some nd ∧ next nd = from_option Some e (ls !! S i).
Proof.
  revert o i. induction ls as [|k ls IH]; intros o i; simpl; [done|].
  intros (-> & nd & Hl & Hs). destruct i as [|i]; simpl.
  - intros [= ->]. exists nd. split; [done|].
    destruct ls as [|k' ls]; simpl in *; [done|]. by destruct Hs as (-> & _).
  - intros Hi. by eapply IH.
Qed.

Lemma backlinks_lookup h p ls i l :
  backlinks h p ls → ls !! i = Some l →
  ∃ nd, h !! l = Some nd ∧
        previous nd = match i with O => p | S j => ls !! j end.
Proof.
  revert p i. induction ls as [|k ls IH]; intros p i; simpl; [done|].
  intros ((nd & Hl & Hp) & Hb). destruct i as [|i]; simpl.
  - intros [= ->]. by exists nd.
  - intros Hi. destruct (IH _ _ Hb Hi) as (nd' & Hl' & Hp').
    exists nd'. split; [done|]. rewrite Hp'.
    destruct i as [|i]; [done|]. done.
Qed.

Lemma backlinks_of_links h o p ls :
  seg h o ls None →
  (∀ n nd m, n ∈ ls → h !! n = Some nd → next nd = Some m →
     ∃ md, h !! m = Some md ∧ previous md = Some n) →
  (∀ l nd, head ls = Some l → h !! l = Some nd → previous nd = p) →
  backlinks h p ls.
Proof.
  revert o p. induction ls as [|l ls IH]; intros o p; simpl; [done|].
  intros (-> & nd & Hl & Hs) Hdl Hp. split.
  - exists nd. split; [done|]. by eapply Hp.
  - eapply IH; [done| |].
    + intros n nd' m Hin. apply Hdl. by apply list_elem_of_further.
    + intros k nd' Hk Hlk. destruct ls as [|k' ls]; [done|].
      simpl in Hk. injection Hk as ->. destruct Hs as (Hn & _).
      destruct (Hdl l nd k (list_elem_of_here _ _) Hl Hn) as (md & Hmd & Hpr).
      congruence.
Qed.

Lemma chainb_sound h o p ls :
  chainb h o p ls = true → seg h o ls None ∧ backlinks h p ls.
Proof.
  revert o p. induction ls as [|l ls IH]; intros o p; simpl.
  - intros H%bool_decide_eq_true. done.
  - intros [Ho H]%andb_true_iff. apply bool_decide_eq_true in Ho as ->.
    destruct (h !! l) as [nd|] eqn:Hl; [|done].
    apply andb_true_iff in H as [Hp H]. apply bool_decide_eq_true in Hp.
    apply IH in H as [Hs Hb]. split; [split; [done|]|split; [|done]];
      by exists nd.
Qed.

Lemma dllb_sound s ls : dllb s ls = true → dll s ls.
Proof.
  unfold dllb, dll. intros [[Hc Hl]%andb_true_iff Hn]%andb_true_iff.
  apply chainb_sound in Hc as [Hs Hb].
  apply bool_decide_eq_true in Hl. apply Z.eqb_eq in Hn. done.
Qed.

Lemma dll_first s ls : dll s ls → first (this s) = head ls.
Proof.
  intros (Hs & _). unfold chain in Hs. destruct ls; simpl in *; [done|].
  by destruct Hs as (-> & _).
Qed.

(** Forward and backward links that agree make the list doubly linked. *)
Lemma links_doubly_linked s ls :
  chain (heap s) (first (this s)) ls → backlinks (heap s) None ls →
  doubly_linked s.
Proof.
  intros Hs Hb n nd Hlive Hnd.
  apply (seg_reach _ _ _ n Hs) in Hlive.
  apply list_elem_of_lookup in Hlive as (i & Hi). split.
  - intros m Hm.
    destruct (seg_lookup _ _ _ _ _ _ Hs Hi) as (nd' & ? & Hnx). simplify_eq.
    rewrite Hm in Hnx. destruct (ls !! S i) as [m'|] eqn:Hsi; [|done].
    simpl in Hnx. injection Hnx as <-.
    destruct (backlinks_lookup _ _ _ _ _ Hb Hsi) as (md & Hmd & Hpr).
    exists md. split; [done|]. by rewrite Hpr.
  - intros m Hm.
    destruct (backlinks_lookup _ _ _ _ _ Hb Hi) as (nd' & ? & Hpr). simplify_eq.
    rewrite Hm in Hpr. destruct i as [|j]; [done|].
    destruct (seg_lookup _ _ _ _ _ _ Hs (eq_sym Hpr)) as (md & Hmd & Hnx).
    exists md. split; [done|]. by rewrite Hnx, Hi.
Qed.

Lemma dll_invariants s ls : dll s ls → invariants s.
Proof.
  intros Hd. pose proof (dll_first _ _ Hd) as Hf.
  destruct Hd as (Hs & Hb & Hl & Hn). split_and!.
  - split.
    + rewrite Hn, Hf. destruct ls; simpl; [done|]. split; [lia|done].
    + rewrite Hf, Hl. split; [by intros ->%head_None|by intros ->%last_None].
  - by eapply links_doubly_linked.
  - split.
    + intros f Hff. rewrite Hf in Hff. destruct ls as [|k ls]; [done|].
      injection Hff as ->.
      destruct (backlinks_lookup _ _ _ 0%nat f Hb eq_refl) as (nd & ? & ?).
      by exists nd.
    + intros l Hll. rewrite Hl, last_lookup in Hll.
      destruct (seg_lookup _ _ _ _ _ _ Hs Hll) as (nd & Hnd & Hnx).
      exists nd. split; [done|]. rewrite Hnx.
      rewrite (lookup_ge_None_2 ls); [done|]. lia.
  - by exists ls.
Qed.

Lemma invariants_dll s : invariants s → ∃ ls, dll s ls.
Proof.
  intros (_ & Hdl & (Hfirst & _) & (ls & Hs & Hn & Hl)).
  exists ls. split; [done|]. split; [|done].
  eapply backlinks_of_links; [done| |].
  - intros n nd m Hin Hnd Hnx.
    apply (seg_reach _ _ _ n Hs) in Hin.
    destruct (Hdl n nd Hin Hnd) as (Hfw & _). by apply Hfw.
  - intros l nd Hh Hnd.
    assert (first (this s) = Some l) as Hfl.
    { destruct ls; simpl in *; [done|]. destruct Hs as (-> & _). done. }
    destruct (Hfirst l Hfl) as (nd' & ? & ?). congruence.
Qed.
(** The checker settles the invariants of a concrete state. *)
Lemma invariants_checked s ls : dllb s ls = true → invariants s.
Proof. intros H. by eapply dll_invariants, dllb_sound. Qed.

Lemma chain_checked s ls :
  dllb s ls = true → chain (heap s) (first (this s)) ls.
Proof. intros H. by apply dllb_sound in H as (? & _). Qed.
End representation.

(** ** The primitives, run *)

Section primitives.
Implicit Types (s : state) (l : loc) (nd : Node) (o : option loc).

(** The location that [new Node] takes is not in use. *)
Lemma fresh_heap (h : gmap loc Node) : h !! fresh (dom h) = None.
Proof. apply not_elem_of_dom. apply is_fresh. Qed.

Lemma run_load s l nd : heap s !! l = Some nd → load l s = Ret nd s.
Proof. intros H. unfold load. by rewrite H. Qed.

Lemma run_get_value s l nd :
  heap s !! l = Some nd → get_value l s = Ret (value nd) s.
Proof. intros H. unfold get_value. by rewrite run_bind, (run_load _ _ _ H). Qed.

Lemma run_get_previous s l nd :
  heap s !! l = Some nd → get_previous l s = Ret (previous nd) s.
Proof. intros H. unfold get_previous. by rewrite run_bind, (run_load _ _ _ H). Qed.

Lemma run_get_next s l nd :
  heap s !! l = Some nd → get_next l s = Ret (next nd) s.
Proof. intros H. unfold get_next. by rewrite run_bind, (run_load _ _ _ H). Qed.

Lemma run_set_previous s l nd o :
  heap s !! l = Some nd →
  set_previous l o s =
  Ret () {| heap := <[l := {| value := value nd; previous := o; next := next nd |}]> (heap s);
            this := this s |}.
Proof. intros H. unfold set_previous. by rewrite run_bind, (run_load _ _ _ H). Qed.

Lemma run_set_next s l nd o :
  heap s !! l = Some nd →
  set_next l o s =
  Ret () {| heap := <[l := {| value := value nd; previous := previous nd; next := o |}]> (heap s);
            this := this s |}.
Proof. intros H. unfold set_next. by rewrite run_bind, (run_load _ _ _ H). Qed.
Lemma run_new_Node v s :
  new_Node v s =
  Ret (fresh (dom (heap s)))
      {| heap := <[fresh (dom (heap s)) := Node_constructor v]> (heap s);
         this := this s |}.
Proof. reflexivity. Qed.

Lemma run_get_first s : get_first s = Ret (first (this s)) s.
Proof. reflexivity. Qed.
Lemma run_get_last s : get_last s = Ret (last (this s)) s.
Proof. reflexivity. Qed.
Lemma run_get_size s : get_size s = Ret (size (this s)) s.
Proof. reflexivity. Qed.
Lemma run_set_first o s :
  set_first o s =
  Ret () {| heap := heap s;
            this := {| first := o; last := last (this s); size := size (this s) |} |}.
Proof. reflexivity. Qed.
Lemma run_set_last o s :
  set_last o s =
  Ret () {| heap := heap s;
            this := {| first := first (this s); last := o; size := size (this s) |} |}.
Proof. reflexivity. Qed.
Lemma run_set_size n s :
  set_size n s =
  Ret () {| heap := heap s;
            this := {| first := first (this s); last := last (this s); size := n |} |}.
Proof. reflexivity. Qed.
Lemma run_deref l s : deref (Some l) s = Ret l s.
Proof. reflexivity. Qed.
Lemma run_as_node l s : as_node (VNode l) s = Ret l s.
Proof. reflexivity. Qed.
Lemma run_value_of s l nd :
  heap s !! l = Some nd → value_of (VNode l) s = Ret (value nd) s.
Proof. apply run_get_value. Qed.
End primitives.

(** Solve a heap lookup through a stack of updates. *)
Ltac lookup_tac :=
  cbn [heap this];
  repeat first
    [ rewrite lookup_insert_eq
    | rewrite lookup_insert_ne by (first [assumption | congruence | by apply not_eq_sym]) ];
  first [reflexivity | eassumption].

(** One step of a method: run the computation at the head of a bind. *)
Ltac mstep :=
  rewrite ?run_bind;
  first
    [ erewrite run_get_value by lookup_tac
    | erewrite run_value_of by lookup_tac
    | erewrite run_get_previous by lookup_tac
    | erewrite run_get_next by lookup_tac
    | erewrite run_set_previous by lookup_tac
    | erewrite run_set_next by lookup_tac
    | rewrite run_new_Node
    | rewrite run_get_first | rewrite run_get_last | rewrite run_get_size
    | rewrite run_set_first | rewrite run_set_last | rewrite run_set_size
    | rewrite run_deref | rewrite run_as_node | rewrite run_ret ];
  cbn [heap this first last size value previous next Node_constructor].

Ltac msteps := repeat mstep.

(** The values stored in a heap survive updates that only touch links. *)
Ltac kept :=
  let k := fresh "k" in
  let Hk := fresh "Hk" in
  intros k Hk; cbn [heap];
  repeat (rewrite lookup_insert; case_decide; simplify_eq);
  try done;
  repeat match goal with
         | H : ?h !! ?x = Some _ |- context [?h !! ?x] => rewrite H
         end;
  done.

(** Run the computation at the head of a bind by a known equation. *)
Ltac mrun H :=
  rewrite ?run_bind, H;
  cbn [heap this first last size value previous next Node_constructor].

(** ** The traversal of [find] *)

Section traversal.
Implicit Types (cb : callback) (s : state) (ls : list loc) (o : option loc).

Lemma strict_eq_undefined r : strict_eq r VUndefined = true ↔ r = VUndefined.
Proof. destruct r; simpl; split; congruence. Qed.

Lemma find_loop_hit cb s ls e l r k :
  ∀ fuel o pos,
  seg (heap s) o ls e → ls !! k = Some l → (k < fuel)%nat →
  (∀ j l', (j < k)%nat → ls !! j = Some l' →
     cb l' (pos + Z.of_nat j) s = Ret VUndefined s) →
  cb l (pos + Z.of_nat k) s = Ret r s → r ≠ VUndefined →
  find_loop fuel cb o pos s = Ret r s.
Proof.
  revert ls. induction k as [|k IH]; intros ls fuel o pos Hs Hk Hf Hbefore Hr Hdef;
    destruct ls as [|l0 ls]; try done; destruct fuel as [|fuel]; try lia;
    destruct Hs as (-> & nd & Hl & Hs); simpl in Hk.
  - injection Hk as ->. simpl. rewrite run_bind.
    replace (pos + Z.of_nat 0) with pos in Hr by lia. rewrite Hr.
    destruct (strict_eq r VUndefined) eqn:E; [by apply strict_eq_undefined in E|done].
  - simpl. rewrite run_bind.
    specialize (Hbefore 0%nat l0 ltac:(lia) eq_refl) as H0.
    replace (pos + Z.of_nat 0) with pos in H0 by lia. rewrite H0. simpl.
    rewrite run_bind, (run_get_next _ _ _ Hl).
    eapply IH; [done|done|lia| |by replace (pos + 1 + Z.of_nat k) with (pos + Z.of_nat (S k)) by lia|done].
    intros j l' Hj Hjl. replace (pos + 1 + Z.of_nat j) with (pos + Z.of_nat (S j)) by lia.
    apply Hbefore; [lia|done].
Qed.

Lemma find_loop_miss cb s ls :
  ∀ fuel o pos,
  seg (heap s) o ls None → (length ls < fuel)%nat →
  (∀ j l', ls !! j = Some l' → cb l' (pos + Z.of_nat j) s = Ret VUndefined s) →
  find_loop fuel cb o pos s = Ret VUndefined s.
Proof.
  induction ls as [|l ls IH]; intros fuel o pos Hs Hf Hall;
    (destruct fuel as [|fuel]; [simpl in Hf; lia|]).
  - simpl in Hs. subst o. done.
  - destruct Hs as (-> & nd & Hl & Hs). simpl. rewrite run_bind.
    specialize (Hall 0%nat l eq_refl) as H0.
    replace (pos + Z.of_nat 0) with pos in H0 by lia. rewrite H0. simpl.
    rewrite run_bind, (run_get_next _ _ _ Hl).
    apply IH; [done|simpl in Hf; lia|].
    intros j l' Hjl. replace (pos + 1 + Z.of_nat j) with (pos + Z.of_nat (S j)) by lia.
    by apply Hall.
Qed.

Lemma find_loop_spec cb s ls :
  (∀ l i r s', cb l i s = Ret r s' → s' = s) →
  ∀ fuel o pos,
  seg (heap s) o ls None → (length ls < fuel)%nat →
  find_loop fuel cb o pos s = find_spec cb ls pos s.
Proof.
  intros Hpure. induction ls as [|l ls IH]; intros fuel o pos Hs Hf;
    (destruct fuel as [|fuel]; [simpl in Hf; lia|]).
  - simpl in Hs. subst o. done.
  - destruct Hs as (-> & nd & Hl & Hs). simpl. rewrite !run_bind.
    destruct (cb l pos s) as [r s'| | |] eqn:E; try done.
    apply Hpure in E as ->.
    destruct (negb (strict_eq r VUndefined)); [done|].
    rewrite run_bind, (run_get_next _ _ _ Hl).
    apply IH; [done|simpl in Hf; lia].
Qed.

Lemma find_loop_frame cb :
  nonmutating cb →
  ∀ fuel o pos s r s', find_loop fuel cb o pos s = Ret r s' → s' = s.
Proof.
  intros Hpure. induction fuel as [|fuel IH]; intros o pos s r s'; simpl; [done|].
  destruct o as [c|]; [|by intros [= _ ->]].
  rewrite run_bind. destruct (cb c pos s) as [r0 s0| | |] eqn:E; try done.
  apply Hpure in E as ->.
  destruct (negb (strict_eq r0 VUndefined)); [by intros [= _ ->]|].
  rewrite run_bind. unfold get_next, load. rewrite run_bind.
  destruct (heap s !! c); [|done]. simpl. apply IH.
Qed.

Lemma get_cb_nonmutating index : nonmutating (get_cb index).
Proof.
  intros l i s r s'. unfold get_cb.
  destruct (strict_eq (VNum i) index); by intros [= _ ->].
Qed.

Lemma indexOf_cb_nonmutating v : nonmutating (indexOf_cb v).
Proof.
  intros l i s r s'. unfold indexOf_cb, get_value, load. rewrite !run_bind.
  destruct (heap s !! l) as [nd|]; [|done]. simpl.
  destruct (strict_eq (value nd) v); by intros [= _ ->].
Qed.

Lemma get_in_range s ls fuel k l :
  chain (heap s) (first (this s)) ls → (k < fuel)%nat → ls !! k = Some l →
  get fuel (VNum (Z.of_nat k)) s = Ret (VNode l) s.
Proof.
  intros Hs Hf Hk. unfold get, find. rewrite run_bind. simpl.
  eapply find_loop_hit; [done|done|done| | |done].
  - intros j l' Hj _. unfold get_cb. simpl.
    destruct (Z.eqb_spec (0 + Z.of_nat j) (Z.of_nat k)); [lia|done].
  - unfold get_cb. simpl. by rewrite Z.eqb_refl.
Qed.

Lemma get_out_of_range s ls fuel i :
  chain (heap s) (first (this s)) ls → (length ls < fuel)%nat →
  i < 0 ∨ Z.of_nat (length ls) ≤ i →
  get fuel (VNum i) s = Ret VUndefined s.
Proof.
  intros Hs Hf Hi. unfold get, find. rewrite run_bind. simpl.
  eapply find_loop_miss; [done|done|].
  intros j l' Hj. apply lookup_lt_Some in Hj. unfold get_cb. simpl.
  destruct (Z.eqb_spec (0 + Z.of_nat j) i); [lia|done].
Qed.
End traversal.

(** ** Heap updates that leave a segment as it is *)

Section frames.
Implicit Types (h : gmap loc Node) (o e p : option loc) (ls : list loc).

Lemma seg_insert_notin h o ls e l x :
  l ∉ ls → seg h o ls e → seg (<[l := x]> h) o ls e.
Proof.
  intros Hl. apply seg_ext. intros k Hk.
  rewrite lookup_insert_ne; [done|]. by intros ->.
Qed.

Lemma backlinks_insert_notin h p ls l x :
  l ∉ ls → backlinks h p ls → backlinks (<[l := x]> h) p ls.
Proof.
  intros Hl. apply backlinks_ext. intros k Hk.
  rewrite lookup_insert_ne; [done|]. by intros ->.
Qed.

Lemma seg_insert_same_next h o ls e l nd x :
  h !! l = Some nd → next x = next nd →
  seg h o ls e → seg (<[l := x]> h) o ls e.
Proof.
  intros Hl Hx. apply seg_ext. intros k _.
  destruct (decide (l = k)) as [->|Hne].
  - by rewrite lookup_insert_eq, Hl; simpl; rewrite Hx.
  - by rewrite lookup_insert_ne.
Qed.

Lemma backlinks_insert_same_previous h p ls l nd x :
  h !! l = Some nd → previous x = previous nd →
  backlinks h p ls → backlinks (<[l := x]> h) p ls.
Proof.
  intros Hl Hx. apply backlinks_ext. intros k _.
  destruct (decide (l = k)) as [->|Hne].
  - by rewrite lookup_insert_eq, Hl; simpl; rewrite Hx.
  - by rewrite lookup_insert_ne.
Qed.

Lemma same_values_refl h : same_values h h.
Proof. done. Qed.

Lemma same_values_insert h h' l nd x :
  same_values h h' → h' !! l = Some nd → value x = value nd →
  same_values h (<[l := x]> h').
Proof.
  intros Hv Hl Hx k. destruct (decide (l = k)) as [->|Hne].
  - rewrite lookup_insert_eq, <- Hv, Hl. simpl. by rewrite Hx.
  - by rewrite lookup_insert_ne.
Qed.

Lemma same_values_lookup h h' l nd :
  same_values h h' → h !! l = Some nd →
  ∃ nd', h' !! l = Some nd' ∧ value nd' = value nd.
Proof.
  intros Hv Hl. specialize (Hv l). rewrite Hl in Hv.
  destruct (h' !! l) as [nd'|]; [|done]. exists nd'. split; [done|].
  simpl in Hv. congruence.
Qed.
End frames.

(** ** Removal at the ends *)

Section removals.
Implicit Types (s : state) (ls : list loc) (l : loc) (nd : Node).

Lemma removeFirst_cons s l ls nd :
  dll s (l :: ls) → heap s !! l = Some nd →
  ∃ s', removeFirst s = Ret (value nd) s' ∧
        chain (heap s') (first (this s')) ls ∧
        backlinks (heap s') None ls ∧
        size (this s') = size (this s) - 1 ∧
        last (this s') = last (this s) ∧
        same_values (heap s) (heap s').
Proof.
  destruct s as [h [f la n]]. intros (Hs & Hb & Hl & Hn) Hnd.
  cbn [heap this first last size] in *.
  pose proof (seg_NoDup _ _ _ Hs) as Hnodup. apply NoDup_cons in Hnodup as [Hnotin _].
  destruct Hs as (-> & nd' & Hnd' & Hs). simplify_eq.
  unfold removeFirst. msteps.
  destruct ls as [|k ls].
  - simpl in Hs. rewrite Hs. msteps.
    unfold value_of_anchor. erewrite run_get_value by lookup_tac.
    eexists. split; [done|]. cbn [heap this first last size]. done.
  - destruct Hs as (Hnx & ndk & Hk & Hs). rewrite Hnx.
    destruct Hb as (_ & (ndk' & Hk' & Hpk) & Hb). simplify_eq.
    assert (l ≠ k) as Hlk by (intros ->; apply Hnotin; apply list_elem_of_here).
    msteps.
    unfold value_of_anchor. erewrite run_get_value by lookup_tac.
    eexists. split; [done|]. cbn [heap this first last size].
    split; [|split; [|split; [done|split; [done|]]]].
    + split; [done|]. eexists. split; [by rewrite lookup_insert_eq|].
      cbn [next]. eapply seg_insert_same_next; [done|done|done].
    + split; [eexists; split; [by rewrite lookup_insert_eq|done]|].
      eapply backlinks_insert_notin; [|done].
      pose proof (seg_NoDup _ _ (k :: ls) (conj eq_refl (ex_intro _ ndk (conj Hk Hs)))) as Hnd2.
      by apply NoDup_cons in Hnd2 as [? _].
    + eapply same_values_insert; [apply same_values_refl|done|done].
Qed.
Lemma from_option_Some_None {A} (x : option A) : from_option Some None x = x.
Proof. by destruct x. Qed.

Lemma NoDup_snoc_notin (ls : list loc) (l : loc) : NoDup (ls ++ [l]) → l ∉ ls.
Proof.
  intros (_ & Hdisj & _)%NoDup_app Hin.
  apply (Hdisj l Hin), list_elem_of_here.
Qed.

Lemma removeLast_snoc s ls l nd :
  dll s (ls ++ [l]) → heap s !! l = Some nd →
  ∃ s', removeLast s = Ret (value nd) s' ∧ dll s' ls ∧
        same_values (heap s) (heap s').
Proof.
  destruct s as [h [f la n]]. intros (Hs & Hb & Hl & Hn) Hnd.
  cbn [heap this first last size] in *.
  pose proof (seg_NoDup _ _ _ Hs) as Hnodup.
  apply seg_app in Hs as (m & Hs & -> & nd' & Hnd' & Hnx). simplify_eq.
  apply backlinks_app in Hb as (Hb & (nd2 & Hnd2 & Hpr) & _). simplify_eq.
  rewrite from_option_Some_None in Hpr. rewrite last_snoc.
  unfold removeLast. msteps. rewrite Hpr.
  destruct (last_is_Some ls) as [Hnil _].
  destruct (list_last ls) as [p|] eqn:Hlast.
  - apply last_Some in Hlast as (ls0 & ->).
    pose proof Hs as Hs'. apply seg_app in Hs' as (m & Hs0 & -> & ndp & Hp & Hpn).
    pose proof (NoDup_snoc_notin _ _ Hnodup) as Hl.
    assert (p ≠ l) as Hpl.
    { intros ->. apply Hl, elem_of_app. right. apply list_elem_of_here. }
    apply NoDup_app in Hnodup as (Hnodup & _ & _).
    pose proof (NoDup_snoc_notin _ _ Hnodup) as Hnotin.
    msteps. unfold value_of_anchor. erewrite run_get_value by lookup_tac.
    eexists. split; [done|]. split.
    + split; [|split; [|split]]; cbn [heap this first last size].
      * apply seg_app. exists (Some p). split.
        -- by apply seg_insert_notin.
        -- split; [done|]. eexists. split; [by rewrite lookup_insert_eq|done].
      * eapply backlinks_insert_same_previous; [done|done|done].
      * by rewrite last_snoc.
      * rewrite !length_app in *. simpl in *. lia.
    + cbn [heap]. eapply same_values_insert; [apply same_values_refl|done|done].
  - apply last_None in Hlast as ->. simpl in Hs. subst f.
    msteps. unfold value_of_anchor. erewrite run_get_value by lookup_tac.
    eexists. split; [done|]. split; [|done].
    split; [done|]. split; [done|]. split; [done|].
    cbn [heap this first last size]. simpl. lia.
Qed.
End removals.

(** ** Removal strictly inside the list *)

Section positional.
Implicit Types (s : state) (ls a b : list loc) (l p c n : loc) (nd : Node).

(** The facts a well-formed list gives about three consecutive nodes. *)
Lemma dll_middle s a p c n b :
  dll s (a ++ p :: c :: n :: b) →
  ∃ ndp ndc ndn,
    heap s !! p = Some ndp ∧ heap s !! c = Some ndc ∧ heap s !! n = Some ndn ∧
    next ndp = Some c ∧ next ndc = Some n ∧
    previous ndc = Some p ∧ previous ndn = Some c ∧
    previous ndp = list_last a ∧
    seg (heap s) (first (this s)) a (Some p) ∧
    seg (heap s) (next ndn) b None ∧
    backlinks (heap s) None a ∧ backlinks (heap s) (Some n) b ∧
    p ≠ c ∧ p ≠ n ∧ c ≠ n ∧
    (p ∉ a) ∧ (c ∉ a) ∧ (n ∉ a) ∧ (p ∉ b) ∧ (c ∉ b) ∧ (n ∉ b).
Proof.
  intros (Hs & Hb & _ & _).
  pose proof (seg_NoDup _ _ _ Hs) as Hnodup.
  apply seg_app in Hs
    as (m & Ha & -> & ndp & Hp & Hpc & ndc & Hc & Hcn & ndn & Hn & Hrest).
  apply backlinks_app in Hb
    as (Hba & (ndp' & Hp' & Hpp) & (ndc' & Hc' & Hcp) & (ndn' & Hn' & Hnp) & Hbb).
  simplify_eq. rewrite from_option_Some_None in Hpp.
  apply NoDup_app in Hnodup as (_ & Hdisj & Hnodup).
  apply NoDup_cons in Hnodup as (Hp1 & Hnodup).
  apply NoDup_cons in Hnodup as (Hc1 & Hnodup).
  apply NoDup_cons in Hnodup as (Hn1 & _).
  repeat rewrite not_elem_of_cons in Hp1. repeat rewrite not_elem_of_cons in Hc1.
  destruct Hp1 as (? & ? & ?). destruct Hc1 as (? & ?).
  exists ndp, ndc, ndn. split_and!; try done.
  all: intros Hin; eapply Hdisj; [exact Hin|set_solver].
Qed.

Lemma splice_out s a p c n b fuel :
  dll s (a ++ p :: c :: n :: b) → (length (a ++ p :: c :: n :: b) < fuel)%nat →
  ∃ ndc s', heap s !! c = Some ndc ∧
    removeByPosition fuel (VNum (Z.of_nat (S (length a)))) s = Ret (value ndc) s' ∧
    dll s' (a ++ p :: n :: b) ∧ same_values (heap s) (heap s').
Proof.
  intros Hd Hfuel.
  assert (get fuel (VNum (Z.of_nat (S (length a)))) s = Ret (VNode c) s) as Hget.
  { eapply get_in_range; [apply Hd| |].
    - rewrite length_app in Hfuel. simpl in Hfuel. lia.
    - rewrite lookup_app_r by lia. by replace (S (length a) - length a)%nat with 1%nat by lia. }
  destruct (dll_middle _ _ _ _ _ _ Hd)
    as (ndp & ndc & ndn & Hp & Hc & Hn & Hpc & Hcn & Hcp & Hnc & Hpp & Hsa & Hsb
        & Hba & Hbb & Hpc' & Hpn & Hcn' & Hpa & Hca & Hna & Hpb & Hcb & Hnb).
  exists ndc. destruct Hd as (_ & _ & Hlast & Hsize).
  destruct s as [h [f la sz]]. cbn [heap this first last size] in *.
  unfold removeByPosition. cbn [default0]. rewrite run_bind, Hget.
  cbn [strict_eq truthy].
  destruct (Z.eqb_spec (Z.of_nat (S (length a))) 0) as [?|_]; [lia|].
  msteps.
  destruct (Z.eqb_spec (Z.of_nat (S (length a))) (sz - 1)) as [Heq|_].
  { rewrite Hsize, length_app in Heq. simpl in Heq. lia. }
  msteps. rewrite Hcp. msteps. rewrite Hcn. msteps.
  eexists. split; [done|]. split; [done|]. split.
  - split; [|split; [|split]]; cbn [heap this first last size].
    + apply seg_app. exists (Some p). split.
      * by repeat (apply seg_insert_notin; [done|]).
      * split; [done|]. eexists. split; [by rewrite lookup_insert_ne, lookup_insert_eq|].
        cbn [next]. split; [done|].
        eexists. split; [by rewrite lookup_insert_eq|]. cbn [next].
        by repeat (apply seg_insert_notin; [done|]).
    + apply backlinks_app. split; [by repeat (apply backlinks_insert_notin; [done|])|].
      rewrite from_option_Some_None. split.
      * eexists. split; [by rewrite lookup_insert_ne, lookup_insert_eq|done].
      * split; [eexists; split; [by rewrite lookup_insert_eq|done]|].
        by repeat (apply backlinks_insert_notin; [done|]).
    + rewrite Hlast. rewrite !last_app. simpl. rewrite !last_cons.
      by destruct (list_last b).
    + rewrite Hsize, !length_app. simpl. lia.
  - cbn [heap]. eapply same_values_insert; [|by rewrite lookup_insert_ne|done].
    eapply same_values_insert; [apply same_values_refl|done|done].
Qed.
End positional.

(** ** Removal by position *)

Section by_position.
Implicit Types (s : state) (ls a b : list loc) (l p c n : loc) (nd : Node).

Lemma delete_snoc (a : list loc) c : delete (length a) (a ++ [c]) = a.
Proof. induction a as [|x a IH]; simpl; [done|]. by rewrite IH. Qed.

Lemma delete_middle (a : list loc) c rest :
  delete (length a) (a ++ c :: rest) = a ++ rest.
Proof. induction a as [|x a IH]; simpl; [done|]. by rewrite IH. Qed.

Lemma list_split3 (ls : list loc) k p c n :
  ls !! k = Some p → ls !! S k = Some c → ls !! S (S k) = Some n →
  ls = take k ls ++ p :: c :: n :: drop (S (S (S k))) ls.
Proof.
  intros Hp Hc Hn.
  rewrite <- (drop_S ls n (S (S k)) Hn), <- (drop_S ls c (S k) Hc).
  by rewrite (take_drop_middle ls k p Hp).
Qed.

Lemma dll_size s ls : dll s ls → size (this s) = Z.of_nat (length ls).
Proof. by intros (_ & _ & _ & ?). Qed.

Lemma removeByPosition_in_range s ls fuel k c ndc :
  dll s ls → (length ls < fuel)%nat →
  ls !! k = Some c → heap s !! c = Some ndc →
  ∃ s', removeByPosition fuel (VNum (Z.of_nat k)) s = Ret (value ndc) s' ∧
        chain (heap s') (first (this s')) (delete k ls) ∧
        backlinks (heap s') None (delete k ls) ∧
        size (this s') = size (this s) - 1 ∧
        same_values (heap s) (heap s').
Proof.
  intros Hd Hfuel Hk Hc.
  assert (get fuel (VNum (Z.of_nat k)) s = Ret (VNode c) s) as Hget.
  { eapply get_in_range; [apply Hd| |done]. apply lookup_lt_Some in Hk. lia. }
  pose proof (dll_size _ _ Hd) as Hsize.
  destruct (decide (k = 0%nat)) as [->|Hk0].
  { destruct ls as [|c' ls]; [done|]. injection Hk as ->.
    destruct (removeFirst_cons _ _ _ _ Hd Hc) as (s' & Hrun & Hs & Hb & Hsz & _ & Hv).
    destruct (same_values_lookup _ _ _ _ Hv Hc) as (nd' & Hc' & Hval).
    exists s'. split; [|done].
    unfold removeByPosition. cbn [default0]. rewrite run_bind, Hget.
    cbn [strict_eq truthy]. change (Z.of_nat 0 =? 0) with true. cbn iota.
    mrun Hrun. msteps. by rewrite Hval. }
  destruct (decide (S k = length ls)) as [Hklast|Hkmid].
  { assert (list_last ls = Some c) as Hlast.
    { rewrite last_lookup. by replace (pred (length ls)) with k by lia. }
    apply last_Some in Hlast as (ls0 & ->).
    rewrite length_app in Hklast. simpl in Hklast.
    assert (k = length ls0) as -> by lia. rewrite delete_snoc.
    destruct (removeLast_snoc _ _ _ _ Hd Hc) as (s' & Hrun & Hd' & Hv).
    destruct (same_values_lookup _ _ _ _ Hv Hc) as (nd' & Hc' & Hval).
    exists s'. split; [|destruct Hd' as (? & ? & _ & Hsz')].
    - unfold removeByPosition. cbn [default0]. rewrite run_bind, Hget.
      cbn [strict_eq truthy].
      destruct (Z.eqb_spec (Z.of_nat (length ls0)) 0) as [?|_]; [lia|].
      mstep. rewrite Hsize.
      destruct (Z.eqb_spec (Z.of_nat (length ls0)) (Z.of_nat (length (ls0 ++ [c])) - 1)) as [_|Hne].
      + mrun Hrun. msteps. by rewrite Hval.
      + rewrite length_app in Hne. simpl in Hne. lia.
    - split_and!; try done. rewrite Hsz', Hsize, length_app. simpl. lia. }
  destruct k as [|k]; [done|].
  assert (S (S k) < length ls)%nat as Hlt.
  { apply lookup_lt_Some in Hk. lia. }
  destruct (lookup_lt_is_Some_2 ls k ltac:(lia)) as (p & Hp).
  destruct (lookup_lt_is_Some_2 ls (S (S k)) Hlt) as (n & Hn).
  pose proof (list_split3 _ _ _ _ _ Hp Hk Hn) as Hsplit.
  assert (length (take k ls) = k) as Hla by (rewrite length_take; lia).
  revert Hsplit Hla. generalize (take k ls) (drop (S (S (S k))) ls).
  intros a b -> Hla. clear Hp Hk Hn Hlt Hkmid Hget.
  destruct (splice_out _ _ _ _ _ _ _ Hd Hfuel) as (ndc' & s' & Hc' & Hrun & Hd' & Hv).
  rewrite Hla in Hrun. simplify_eq.
  exists s'. split; [done|].
  replace (delete (S (length a)) (a ++ p :: c :: n :: b)) with (a ++ p :: n :: b).
  - destruct Hd' as (? & ? & _ & Hsz'). split_and!; try done.
    rewrite Hsz', Hsize, !length_app. simpl. lia.
  - change (a ++ p :: c :: n :: b) with (a ++ [p] ++ c :: n :: b).
    rewrite (assoc_L (++)).
    replace (S (length a)) with (length (a ++ [p])) by (rewrite length_app; simpl; lia).
    rewrite delete_middle. by rewrite <- (assoc_L (++)).
Qed.

Lemma removeFirst_nil s : dll s [] → removeFirst s = Ret VNull s.
Proof.
  destruct s as [h [f la n]]. intros (Hs & _ & Hl & _).
  cbn [heap this first last size] in *. unfold chain in Hs. simpl in Hs, Hl. subst.
  unfold removeFirst. by msteps.
Qed.

Lemma removeLast_nil s : dll s [] → removeLast s = Ret VNull s.
Proof.
  destruct s as [h [f la n]]. intros (Hs & _ & Hl & _).
  cbn [heap this first last size] in *. unfold chain in Hs. simpl in Hs, Hl. subst.
  unfold removeLast. by msteps.
Qed.

Lemma removeByPosition_out_of_range s ls fuel i :
  dll s ls → (length ls < fuel)%nat →
  i < 0 ∨ Z.of_nat (length ls) ≤ i →
  removeByPosition fuel (VNum i) s = Ret VUndefined s.
Proof.
  intros Hd Hfuel Hi.
  pose proof (get_out_of_range _ _ _ _ (proj1 Hd) Hfuel Hi) as Hget.
  pose proof (dll_size _ _ Hd) as Hsize.
  unfold removeByPosition. cbn [default0]. rewrite run_bind, Hget.
  cbn [strict_eq truthy].
  destruct (Z.eqb_spec i 0) as [->|Hi0].
  { destruct ls; [|simpl in Hi; lia].
    by mrun (removeFirst_nil _ Hd). }
  mstep.
  destruct (Z.eqb_spec i (size (this s) - 1)) as [->|_]; [|done].
  destruct ls; [|simpl in *; lia].
  by mrun (removeLast_nil _ Hd).
Qed.
End by_position.

(** ** Insertion strictly inside the list *)

Section insertion.
Implicit Types (s : state) (ls a b : list loc) (l p c n : loc) (nd : Node).

Lemma dll_pair s a p c b :
  dll s (a ++ p :: c :: b) →
  ∃ ndp ndc,
    heap s !! p = Some ndp ∧ heap s !! c = Some ndc ∧
    next ndp = Some c ∧ previous ndc = Some p ∧
    seg (heap s) (first (this s)) a (Some p) ∧
    seg (heap s) (next ndc) b None ∧
    p ≠ c ∧ (p ∉ a) ∧ (c ∉ a) ∧ (p ∉ b) ∧ (c ∉ b) ∧ (∀ x, x ∈ b → x ∉ a).
Proof.
  intros (Hs & Hb & _ & _).
  pose proof (seg_NoDup _ _ _ Hs) as Hnodup.
  apply seg_app in Hs as (m & Ha & -> & ndp & Hp & Hpc & ndc & Hc & Hrest).
  apply backlinks_app in Hb as (_ & _ & (ndc' & Hc' & Hcp) & _).
  simplify_eq.
  apply NoDup_app in Hnodup as (_ & Hdisj & Hnodup).
  apply NoDup_cons in Hnodup as (Hp1 & Hnodup).
  apply NoDup_cons in Hnodup as (Hc1 & _).
  apply not_elem_of_cons in Hp1 as (? & ?).
  exists ndp, ndc. split_and!; try done.
  all: try (intros Hin; eapply Hdisj; [exact Hin|set_solver]).
  intros x Hxb Hxa. eapply Hdisj; [exact Hxa|set_solver].
Qed.

Lemma seg_fresh (h : gmap loc Node) o ls e l :
  h !! l = None → seg h o ls e → l ∉ ls.
Proof.
  intros Hl Hs Hin. destruct (seg_is_Some _ _ _ _ _ Hs Hin) as (? & ?). congruence.
Qed.

(** What [add] does strictly inside the list: the forward links are right,
    the size is right, and the node that was at the position is untouched,
    so that it still points back to its former predecessor. *)
Lemma add_middle s a p c b fuel v :
  dll s (a ++ p :: c :: b) → (length (a ++ p :: c :: b) < fuel)%nat →
  ∃ l ndc s',
    heap s !! l = None ∧ heap s !! c = Some ndc ∧
    add fuel v (VNum (Z.of_nat (S (length a)))) s = Ret (VNode l) s' ∧
    chain (heap s') (first (this s')) (a ++ p :: l :: c :: b) ∧
    size (this s') = size (this s) + 1 ∧
    heap s' !! c = Some ndc ∧ previous ndc = Some p ∧
    (∃ ndp, heap s' !! p = Some ndp ∧ next ndp = Some l) ∧
    heap s' !! l = Some {| value := v; previous := Some p; next := Some c |} ∧
    (∀ k, k ≠ l → value <$> heap s' !! k = value <$> heap s !! k).
Proof.
  intros Hd Hfuel.
  assert (get fuel (VNum (Z.of_nat (S (length a)))) s = Ret (VNode c) s) as Hget.
  { eapply get_in_range; [apply Hd| |].
    - rewrite length_app in Hfuel. simpl in Hfuel. lia.
    - rewrite lookup_app_r by lia.
      by replace (S (length a) - length a)%nat with 1%nat by lia. }
  destruct (dll_pair _ _ _ _ _ Hd)
    as (ndp & ndc & Hp & Hc & Hpc & Hcp & Hsa & Hsb & Hpc' & Hpa & Hca & Hpb & Hcb & Hab).
  destruct Hd as (_ & _ & _ & Hsize).
  destruct s as [h [f la sz]]. cbn [heap this first last size] in *.
  pose proof (fresh_heap h) as Hfr. set (l := fresh (dom h)) in *.
  assert (l ≠ p) as Hlp by congruence. assert (l ≠ c) as Hlc by congruence.
  pose proof (seg_fresh _ _ _ _ _ Hfr Hsa) as Hla.
  pose proof (seg_fresh _ _ _ _ _ Hfr Hsb) as Hlb.
  exists l, ndc.
  unfold add. cbn [default0 strict_eq].
  destruct (Z.eqb_spec (Z.of_nat (S (length a))) 0) as [?|_]; [lia|].
  mstep.
  destruct (Z.eqb_spec (Z.of_nat (S (length a))) sz) as [Heq|_].
  { rewrite Hsize, length_app in Heq. simpl in Heq. lia. }
  mrun Hget. cbn [truthy]. msteps. fold l. msteps. rewrite Hcp. msteps.
  destruct b as [|n b].
  - simpl in Hsb. rewrite Hsb. msteps.
    eexists. split_and!; try done; cbn [heap this first last size].
    + apply seg_app. exists (Some p). split.
      * by repeat (apply seg_insert_notin; [done|]).
      * split; [done|]. eexists. split; [lookup_tac|].
        cbn [next]. split; [done|].
        eexists. split; [lookup_tac|].
        cbn [next]. split; [done|].
        eexists. split; [lookup_tac|]. by rewrite Hsb.
    + lookup_tac.
    + eexists. split; [lookup_tac|done].
    + lookup_tac.
    + kept.
  - pose proof (seg_NoDup _ _ _ Hsb) as Hnb. apply NoDup_cons in Hnb as (Hnb & _).
    destruct Hsb as (Hcn & ndn & Hn & Hsb). rewrite Hcn.
    apply not_elem_of_cons in Hpb as (Hpn & Hpb).
    apply not_elem_of_cons in Hcb as (Hcn' & Hcb).
    apply not_elem_of_cons in Hlb as (Hln & Hlb).
    assert (n ∉ a) as Hna.
    { apply Hab, list_elem_of_here. }
    msteps.
    eexists. split_and!; try done; cbn [heap this first last size].
    + apply seg_app. exists (Some p). split.
      * by repeat (apply seg_insert_notin; [done|]).
      * split; [done|]. eexists. split; [lookup_tac|].
        cbn [next]. split; [done|].
        eexists. split; [lookup_tac|].
        cbn [next]. split; [done|].
        eexists. split; [lookup_tac|]. rewrite Hcn.
        split; [done|]. eexists. split; [lookup_tac|].
        cbn [next]. by repeat (apply seg_insert_notin; [done|]).
    + lookup_tac.
    + eexists. split; [lookup_tac|done].
    + lookup_tac.
    + kept.
Qed.
End insertion.

(** ** The argument of [remove] *)

Section resolution.
Implicit Types (s : state) (ls : list loc) (l : loc) (nd : Node).

Lemma invariants_chain_dll s ls :
  invariants s → chain (heap s) (first (this s)) ls → dll s ls.
Proof.
  intros (ls' & Hd)%invariants_dll Hc.
  by rewrite (seg_det _ _ _ _ Hc (proj1 Hd)).
Qed.

Lemma invariants_size_dll s :
  invariants s → ∃ ls, dll s ls ∧ size (this s) = Z.of_nat (length ls).
Proof.
  intros (ls & Hd)%invariants_dll. exists ls. split; [done|]. by apply dll_size.
Qed.

Lemma find_remove_cb_hit s ls fuel f k :
  chain (heap s) (first (this s)) ls → (length ls < fuel)%nat →
  resolves s ls (ArgFunction f) (Some k) →
  find fuel (remove_cb f) s = Ret (VNum (Z.of_nat k)) s.
Proof.
  intros Hc Hfuel ((l & x & Hl & Hx & Ht) & Hbefore).
  pose proof (lookup_lt_Some _ _ _ Hl) as Hk.
  unfold find. rewrite run_bind, run_get_first.
  eapply find_loop_hit; [exact Hc|exact Hl|lia| | |done].
  - intros j l' Hj Hjl. destruct (Hbefore j l' Hj Hjl) as (y & Hy & Hty).
    unfold remove_cb. by rewrite run_bind, Z.add_0_l, Hy, Hty.
  - unfold remove_cb. by rewrite run_bind, Z.add_0_l, Hx, Ht.
Qed.

Lemma find_remove_cb_miss s ls fuel f :
  chain (heap s) (first (this s)) ls → (length ls < fuel)%nat →
  resolves s ls (ArgFunction f) None →
  find fuel (remove_cb f) s = Ret VUndefined s.
Proof.
  intros Hc Hfuel Hres. simpl in Hres.
  unfold find. rewrite run_bind, run_get_first.
  eapply find_loop_miss; [exact Hc|lia|].
  intros j l' Hjl. destruct (Hres j l' Hjl) as (x & Hx & Ht).
  unfold remove_cb. by rewrite run_bind, Z.add_0_l, Hx, Ht.
Qed.

(** An integer that fits the 53 bits of a significand reads as itself. *)
Lemma parseInt_safe_integer n :
  Z.abs n < 2 ^ 53 → parseInt (VNum n) = VNum n.
Proof.
  intros Hn. cbn [parseInt]. unfold parseInt_num, to_double.
  destruct (Z.ltb_spec (Z.abs n) (2 ^ 53)) as [_|?]; [|lia].
  destruct (Z.leb_spec (2 ^ 1024) (Z.abs n)) as [Hbig|_].
  { assert (2 ^ 53 < 2 ^ 1024) by (apply Z.pow_lt_mono_r; lia). lia. }
  destruct (Z.ltb_spec (Z.abs n) (10 ^ 21)) as [_|Hbig].
  - f_equal. lia.
  - assert (2 ^ 53 < 10 ^ 21) by (by vm_compute). lia.
Qed.

Lemma parseInt_number v : parseInt v = VNaN ∨ ∃ n, parseInt v = VNum n.
Proof.
  destruct v; cbn [parseInt]; eauto.
  { unfold parseInt_num. repeat case_match; eauto. }
  unfold parseInt_string.
  destruct (match skip_ws s with
            | String "-" s' => (-1, s')
            | String "+" s' => (1, s')
            | _ => (1, skip_ws s)
            end) as [sign s'].
  destruct (digits s' None); eauto.
Qed.

(** What [remove] does, by what its argument resolves to. *)
Lemma remove_run s ls fuel arg r :
  dll s ls → (length ls < fuel)%nat → resolves s ls arg r →
  match r with
  | None =>
      remove fuel arg s =
      Ret (match arg with
           | ArgFunction _ => VBool false
           | ArgValue _ => VUndefined
           end) s
  | Some k =>
      ∃ l nd s', ls !! k = Some l ∧ heap s !! l = Some nd ∧
        remove fuel arg s = Ret (value nd) s' ∧
        chain (heap s') (first (this s')) (delete k ls) ∧
        backlinks (heap s') None (delete k ls) ∧
        size (this s') = size (this s) - 1
  end.
Proof.
  intros Hd Hfuel Hres. pose proof (proj1 Hd) as Hc.
  destruct r as [k|].
  - assert (k < length ls)%nat as Hk.
    { destruct arg as [f|v]; simpl in Hres.
      - destruct Hres as ((l & x & Hl & _) & _). by apply lookup_lt_Some in Hl.
      - by destruct Hres. }
    destruct (lookup_lt_is_Some_2 ls k Hk) as (l & Hl).
    destruct (seg_is_Some _ _ _ _ _ Hc (list_elem_of_lookup_2 _ _ _ Hl)) as (nd & Hnd).
    destruct (removeByPosition_in_range _ _ _ _ _ _ Hd Hfuel Hl Hnd)
      as (s' & Hrun & Hc' & Hb' & Hsz & _).
    exists l, nd, s'. split_and!; try done.
    destruct arg as [f|v]; simpl.
    + by mrun (find_remove_cb_hit _ _ _ _ _ Hc Hfuel Hres).
    + by destruct Hres as (-> & _).
  - destruct arg as [f|v]; simpl.
    + by mrun (find_remove_cb_miss _ _ _ _ Hc Hfuel Hres).
    + destruct Hres as (i & -> & Hi).
      by apply (removeByPosition_out_of_range _ ls).
Qed.
End resolution.

(** ** Operations that keep the invariants *)

Section preservation.
Implicit Types (s : state) (ls : list loc) (l : loc) (nd : Node).

Lemma addFirst_dll s ls v :
  dll s ls →
  ∃ l s', addFirst v s = Ret l s' ∧ heap s !! l = None ∧ dll s' (l :: ls) ∧
          (value <$> heap s' !! l) = Some v ∧
          (∀ k, k ≠ l → value <$> heap s' !! k = value <$> heap s !! k).
Proof.
  intros Hd. pose proof (dll_first _ _ Hd) as Hfirst.
  destruct s as [h [f la n]]. destruct Hd as (Hs & Hb & Hl & Hn).
  cbn [heap this first last size] in *.
  pose proof (fresh_heap h) as Hfr. set (l := fresh (dom h)) in *.
  pose proof (seg_fresh _ _ _ _ _ Hfr Hs) as Hnotin.
  exists l. unfold addFirst. msteps. fold l. msteps.
  destruct ls as [|x ls].
  - simpl in Hfirst, Hl. subst f la. msteps.
    eexists. split; [reflexivity|]. split; [done|]. split.
    + split_and!; cbn [heap this first last size]; try done.
      * split; [done|]. eexists. split; [lookup_tac|done].
      * split; [|done]. eexists. split; [lookup_tac|done].
      * cbn [length app] in *. lia.
    + cbn [heap]. split; [by rewrite lookup_insert_eq|kept].
  - simpl in Hfirst. subst f. destruct Hs as (_ & ndx & Hx & Hs).
    destruct Hb as ((ndx' & Hx' & Hpx) & Hb). simplify_eq.
    apply not_elem_of_cons in Hnotin as (Hlx & Hnotin).
    pose proof (seg_NoDup _ _ (x :: ls) (conj eq_refl (ex_intro _ ndx (conj Hx Hs)))) as Hnd.
    apply NoDup_cons in Hnd as (Hxls & _).
    msteps.
    eexists. split; [reflexivity|]. split; [done|]. split.
    + split_and!; cbn [heap this first last size].
      * split; [done|]. eexists. split; [lookup_tac|]. cbn [next].
        split; [done|]. eexists. split; [lookup_tac|]. cbn [next].
        by repeat (apply seg_insert_notin; [done|]).
      * split; [eexists; split; [lookup_tac|done]|].
        split; [eexists; split; [lookup_tac|done]|].
        by repeat (apply backlinks_insert_notin; [done|]).
      * done.
      * cbn [length app] in *. lia.
    + cbn [heap]. split; [by rewrite lookup_insert_ne, lookup_insert_eq|kept].
Qed.

Lemma addLast_dll s ls v :
  dll s ls →
  ∃ l s', addLast v s = Ret l s' ∧ heap s !! l = None ∧ dll s' (ls ++ [l]) ∧
          (value <$> heap s' !! l) = Some v ∧
          (∀ k, k ≠ l → value <$> heap s' !! k = value <$> heap s !! k).
Proof.
  intros Hd. pose proof (dll_first _ _ Hd) as Hfirst.
  destruct s as [h [f la n]]. destruct Hd as (Hs & Hb & Hl & Hn).
  cbn [heap this first last size] in *.
  pose proof (fresh_heap h) as Hfr. set (l := fresh (dom h)) in *.
  pose proof (seg_fresh _ _ _ _ _ Hfr Hs) as Hnotin.
  exists l. unfold addLast. msteps. fold l. msteps.
  destruct (list_last ls) as [t|] eqn:Hlast.
  - apply last_Some in Hlast as (ls0 & ->).
    pose proof (seg_NoDup _ _ _ Hs) as Hnd. apply NoDup_snoc_notin in Hnd.
    apply seg_app in Hs as (m & Hs0 & -> & nd & Ht & Hnx).
    apply backlinks_app in Hb as (Hb0 & (nd' & Ht' & Hpt) & _). simplify_eq.
    assert (l ≠ t) as Hlt by congruence.
    apply not_elem_of_app in Hnotin as (Hnotin & _).
    destruct (head (ls0 ++ [t])) as [x|] eqn:Hhead.
    2:{ apply head_None in Hhead. by destruct ls0. }
    subst. msteps.
    eexists. split; [reflexivity|]. split; [done|]. split.
    + split_and!; cbn [heap this first last size].
      * apply seg_app. exists (Some l). split.
        -- apply seg_app. exists (Some t). split.
           ++ by repeat (apply seg_insert_notin; [done|]).
           ++ split; [done|]. eexists. split; [lookup_tac|done].
        -- split; [done|]. eexists. split; [lookup_tac|done].
      * apply backlinks_app. split.
        -- apply backlinks_app. split; [by repeat (apply backlinks_insert_notin; [done|])|].
           split; [|done]. eexists. split; [lookup_tac|done].
        -- rewrite last_snoc. split; [|done]. eexists. split; [lookup_tac|done].
      * by rewrite last_snoc.
      * rewrite !length_app. simpl. lia.
    + cbn [heap]. split; [by rewrite lookup_insert_ne, lookup_insert_eq|kept].
  - apply last_None in Hlast as ->. simpl in Hfirst. subst f la. msteps.
    eexists. split; [reflexivity|]. split; [done|]. split.
    + split_and!; cbn [heap this first last size]; try done.
      * split; [done|]. eexists. split; [lookup_tac|done].
      * split; [|done]. eexists. split; [lookup_tac|done].
      * cbn [length app] in *. lia.
    + cbn [heap]. split; [by rewrite lookup_insert_eq|kept].
Qed.

(** Every operation other than [add] strictly inside the list leaves the
    list doubly linked; those that add a node, and [removeLast], keep all
    four invariants. *)
Lemma other_operations_keep_links s fuel v :
  invariants s → size (this s) < Z.of_nat fuel →
  (∃ l s', addFirst v s = Ret l s' ∧ invariants s') ∧
  (∃ l s', addLast v s = Ret l s' ∧ invariants s') ∧
  (∃ r s', removeFirst s = Ret r s' ∧ doubly_linked s') ∧
  (∃ r s', removeLast s = Ret r s' ∧ invariants s') ∧
  (∀ i, ∃ r s', removeByPosition fuel (VNum i) s = Ret r s' ∧ doubly_linked s') ∧
  (∀ ls arg k, chain (heap s) (first (this s)) ls → resolves s ls arg k →
     ∃ r s', remove fuel arg s = Ret r s' ∧ doubly_linked s') ∧
  (∃ r s', add fuel v (VNum 0) s = Ret r s' ∧ invariants s') ∧
  (∃ r s', add fuel v (VNum (size (this s))) s = Ret r s' ∧ invariants s').
Proof.
  intros Hinv Hfuel. pose proof Hinv as (Hdl0 & _).
  apply invariants_size_dll in Hinv as (ls & Hd & Hsize).
  rewrite Hsize in Hfuel. split_and!.
  - destruct (addFirst_dll _ _ v Hd) as (l & s' & Hrun & _ & Hd' & _).
    exists l, s'. split; [done|]. by eapply dll_invariants.
  - destruct (addLast_dll _ _ v Hd) as (l & s' & Hrun & _ & Hd' & _).
    exists l, s'. split; [done|]. by eapply dll_invariants.
  - destruct ls as [|l ls].
    + exists VNull, s. split; [by apply removeFirst_nil|].
      eapply links_doubly_linked; apply Hd.
    + destruct (seg_is_Some _ _ _ _ l (proj1 Hd) (list_elem_of_here _ _)) as (nd & Hnd).
      destruct (removeFirst_cons _ _ _ _ Hd Hnd) as (s' & Hrun & Hc & Hb & _).
      exists (value nd), s'. split; [done|]. by eapply links_doubly_linked.
  - destruct (list_last ls) as [l|] eqn:Hlast.
    + apply last_Some in Hlast as (ls0 & ->).
      assert (l ∈ ls0 ++ [l]) as Hin by set_solver.
      destruct (seg_is_Some _ _ _ _ l (proj1 Hd) Hin) as (nd & Hnd).
      destruct (removeLast_snoc _ _ _ _ Hd Hnd) as (s' & Hrun & Hd' & _).
      exists (value nd), s'. split; [done|]. by eapply dll_invariants.
    + apply last_None in Hlast as ->.
      exists VNull, s. split; [by apply removeLast_nil|]. by eapply dll_invariants.
  - intros i.
    destruct (decide (0 ≤ i < Z.of_nat (length ls))) as [Hin|Hout].
    + destruct (lookup_lt_is_Some_2 ls (Z.to_nat i) ltac:(lia)) as (c & Hc).
      destruct (seg_is_Some _ _ _ _ c (proj1 Hd) (list_elem_of_lookup_2 _ _ _ Hc)) as (nd & Hnd).
      destruct (removeByPosition_in_range _ _ fuel _ _ _ Hd ltac:(lia) Hc Hnd)
        as (s' & Hrun & Hch & Hb & _).
      rewrite Z2Nat.id in Hrun by lia.
      exists (value nd), s'. split; [done|]. by eapply links_doubly_linked.
    + exists VUndefined, s. split.
      * apply (removeByPosition_out_of_range _ ls); [done|lia|lia].
      * eapply links_doubly_linked; apply Hd.
  - intros ls' arg k Hc Hres.
    rewrite (seg_det _ _ _ _ Hc (proj1 Hd)) in Hres.
    pose proof (remove_run _ _ fuel _ _ Hd ltac:(lia) Hres) as Hrun.
    destruct k as [k|].
    + destruct Hrun as (l & nd & s' & _ & _ & Hrun & Hc' & Hb' & _).
      exists (value nd), s'. split; [done|]. by eapply links_doubly_linked.
    + eexists _, s. split; [exact Hrun|]. eapply links_doubly_linked; apply Hd.
  - destruct (addFirst_dll _ _ v Hd) as (l & s' & Hrun & _ & Hd' & _).
    exists (VNode l), s'. split; [|by eapply dll_invariants].
    unfold add. cbn [default0 strict_eq]. change (0 =? 0) with true. cbn iota.
    by mrun Hrun.
  - unfold add. cbn [default0 strict_eq].
    destruct (Z.eqb_spec (size (this s)) 0) as [_|Hne].
    + destruct (addFirst_dll _ _ v Hd) as (l & s' & Hrun & _ & Hd' & _).
      exists (VNode l), s'. split; [by mrun Hrun|by eapply dll_invariants].
    + destruct (addLast_dll _ _ v Hd) as (l & s' & Hrun & _ & Hd' & _).
      exists (VNode l), s'. split; [|by eapply dll_invariants].
      mstep. rewrite Z.eqb_refl. by mrun Hrun.
Qed.
End preservation.

(** ** Queries *)

Section queries.
Implicit Types (s : state) (ls : list loc) (l : loc).

Lemma run_query_find fuel q : run_query fuel q = find fuel (query_callback q).
Proof. by destruct q. Qed.

Lemma query_callback_nonmutating q :
  query_nonmutating q → nonmutating (query_callback q).
Proof.
  destruct q; simpl; [intros _; apply get_cb_nonmutating
                     |intros _; apply indexOf_cb_nonmutating|done].
Qed.

Lemma find_spec_returns cb s ls :
  (∀ l i, l ∈ ls → ∃ r, cb l i s = Ret r s) →
  ∀ pos, ∃ r, find_spec cb ls pos s = Ret r s.
Proof.
  induction ls as [|l ls IH]; intros Hcb pos; simpl.
  - by exists VUndefined.
  - destruct (Hcb l pos (list_elem_of_here _ _)) as (r & Hr).
    rewrite run_bind, Hr.
    destruct (negb (strict_eq r VUndefined)); [by exists r|].
    apply IH. intros k i Hk. apply Hcb. by apply list_elem_of_further.
Qed.

Lemma query_callback_answers q s ls :
  chain (heap s) (first (this s)) ls → query_answers q s →
  ∀ l i, l ∈ ls → ∃ r, query_callback q l i s = Ret r s.
Proof.
  intros Hc Hq l i Hl. destruct q as [index|v|cb]; simpl.
  - unfold get_cb. destruct (strict_eq (VNum i) (default0 index)); eauto.
  - destruct (seg_is_Some _ _ _ _ _ Hc Hl) as (nd & Hnd).
    unfold indexOf_cb. rewrite run_bind, (run_get_value _ _ _ Hnd).
    destruct (strict_eq (value nd) v); eauto.
  - apply Hq. by apply (seg_reach _ _ _ l Hc).
Qed.

Lemma value_is_nonmutating v : nonmutating (value_is v).
Proof.
  intros l i s r s'. unfold value_is, get_value, load. rewrite !run_bind.
  destruct (heap s !! l); [|done]. by intros [= _ ->].
Qed.

End queries.

(** ** Where the invariants are lost *)

Section defects.
Implicit Types (s : state) (ls a b : list loc) (l p c : loc).

(** [removeFirst] on any one-element list leaves [last] on the removed
    node. *)
Lemma removeFirst_singleton s l :
  dll s [l] →
  ∃ v s', removeFirst s = Ret v s' ∧
    first (this s') = None ∧ size (this s') = 0 ∧ last (this s') = Some l.
Proof.
  intros Hd. destruct (seg_is_Some _ _ _ _ l (proj1 Hd) (list_elem_of_here _ _)) as (nd & Hnd).
  destruct (removeFirst_cons _ _ _ _ Hd Hnd) as (s' & Hrun & Hc' & _ & Hsz & Hl & _).
  exists (value nd), s'. split_and!; try done.
  - rewrite Hsz, (dll_size _ _ Hd). done.
  - rewrite Hl. by destruct Hd as (_ & _ & -> & _).
Qed.

(** [add] at any position strictly inside a list breaks the back links. *)
Lemma add_middle_breaks_links s a p c b fuel v :
  dll s (a ++ p :: c :: b) → (length (a ++ p :: c :: b) < fuel)%nat →
  ∃ l s', add fuel v (VNum (Z.of_nat (S (length a)))) s = Ret (VNode l) s' ∧
          ¬ doubly_linked s'.
Proof.
  intros Hd Hfuel.
  destruct (add_middle _ _ _ _ _ _ v Hd Hfuel)
    as (l & ndc & s' & Hfr & Hc & Hrun & Hch & _ & Hc' & Hcp & (ndp & Hp' & Hpl) & _).
  exists l, s'. split; [done|]. intros Hdl.
  assert (live s' c) as Hlive.
  { apply (seg_reach _ _ _ c Hch). set_solver. }
  destruct (Hdl c ndc Hlive Hc') as (_ & Hback).
  destruct (Hback p Hcp) as (ndp' & Hp'' & Hnx). simplify_eq.
Qed.
End defects.

(** ** The scenarios of the specification, run *)

(** [addLast(1)], [addLast(2)], [addLast(3)]: size 3, [get(1)] is the node
    that holds 2, [indexOf(3)] is 2; then [removeByPosition(1)] returns 2
    and leaves the first and third nodes, size 2. *)
Example scenario_three_elements :
  size (this three_elements) = 3 ∧
  get 4 (VNum 1) three_elements = Ret (VNode 2%positive) three_elements ∧
  indexOf 4 (VNum 3) three_elements = Ret (VNum 2) three_elements ∧
  ∃ s', removeByPosition 4 (VNum 1) three_elements = Ret (VNum 2) s' ∧
        dllb s' [1; 3]%positive = true.
Proof.
  split_and!; try by vm_compute.
  eexists. split; [vm_compute; reflexivity|by vm_compute].
Qed.

(** [addFirst('a')] then [addFirst('b')]: the order is b, a; [removeLast()]
    returns 'a' and leaves one node, which is both [first] and [last]. *)
Example scenario_addFirst_twice :
  ∃ a s1 b s2 s3,
    addFirst (VStr "a") empty_state = Ret a s1 ∧
    addFirst (VStr "b") s1 = Ret b s2 ∧
    dllb s2 [b; a] = true ∧
    removeLast s2 = Ret (VStr "a") s3 ∧
    size (this s3) = 1 ∧ first (this s3) = Some b ∧ last (this s3) = Some b.
Proof.
  eexists _, _, _, _, _.
  split; [vm_compute; reflexivity|]. split; [vm_compute; reflexivity|].
  split; [by vm_compute|]. split; [vm_compute; reflexivity|].
  split_and!; by vm_compute.
Qed.

(** [remove(node => node.value === 'x')] on a list without 'x' returns
    [false] and leaves the list as it is. *)
Example scenario_remove_absent_value :
  remove 3 (ArgFunction (value_is (VStr "x"))) two_elements =
  Ret (VBool false) two_elements.
Proof. by vm_compute. Qed.

(** [remove(1e21)]: the numeral of the number is [1e+21], of which
    [parseInt] reads 1, so that the element at position 1 is removed and
    returned.  Likewise [1e23], which is the double 99999999999999991611392,
    reads as 1, and [-5e21] as -5; the double next below [1e21] has a
    decimal numeral still and reads as itself. *)
Example scenario_remove_exponent_numeral :
  parseInt (VNum (10 ^ 21)) = VNum 1 ∧
  parseInt (VNum 99999999999999991611392) = VNum 1 ∧
  parseInt (VNum (- 5 * 10 ^ 21)) = VNum (-5) ∧
  parseInt (VNum (10 ^ 21 - 131072)) = VNum (10 ^ 21 - 131072) ∧
  ∃ s', remove 4 (ArgValue (VNum (10 ^ 21))) three_elements =
        Ret (VNum 2) s' ∧
        dllb s' [1; 3]%positive = true.
Proof.
  split_and!; try by vm_compute.
  eexists. split; [vm_compute; reflexivity|by vm_compute].
Qed.

(** ** The claims *)

(** C1 (code defect).  The claim: every public operation keeps the list
    doubly linked.  [add] strictly inside the list does not: on the list
    1, 2, 3, which satisfies the invariants, [add(9, 1)] returns a new node
    and leaves a list where some live node [n] has [n.previous == m] while
    [m.next] is not [n]. *)
Theorem add_inside_breaks_links :
  invariants three_elements ∧
  ∃ l s', add 4 (VNum 9) (VNum 1) three_elements = Ret (VNode l) s' ∧
          ¬ doubly_linked s'.
Proof.
  split.
  - apply (invariants_checked _ [1; 2; 3]%positive). by vm_compute.
  - apply (add_middle_breaks_links three_elements [] 1%positive 2%positive [3%positive]).
    + apply dllb_sound. by vm_compute.
    + simpl. lia.
Qed.

(** C2 (code defect).  The claim: after [add(value, p)] with [0 < p < size]
    the node formerly at [p] has the new node as its previous link.  On the
    list 1, 2, 3 the node at position 1 is the second one allocated;
    [add(9, 1)] increments the size to 4 but leaves that node's previous
    link on the first node, which is not the new node. *)
Theorem add_inside_leaves_previous_stale :
  get 4 (VNum 1) three_elements = Ret (VNode 2%positive) three_elements ∧
  ∃ l s' nd,
    add 4 (VNum 9) (VNum 1) three_elements = Ret (VNode l) s' ∧
    size (this s') = 4 ∧
    heap s' !! 2%positive = Some nd ∧
    previous nd = Some 1%positive ∧ previous nd ≠ Some l.
Proof.
  split; [by vm_compute|].
  eexists _, _, _. split; [vm_compute; reflexivity|].
  split; [by vm_compute|]. split; [vm_compute; reflexivity|].
  split; [done|]. cbn. discriminate.
Qed.

(** C3 (code defect).  The claim: [size == 0] iff [first == null] iff
    [last == null] after every operation, and [removeFirst] on a one-element
    list clears [last].  On the list holding 1, which satisfies the
    invariants, [removeFirst] leaves [first == null] and [size == 0] but
    [last] still on the removed node. *)
Theorem removeFirst_leaves_last_stale :
  invariants one_element ∧
  ∃ r s', removeFirst one_element = Ret r s' ∧
          first (this s') = None ∧ size (this s') = 0 ∧
          last (this s') = Some 1%positive ∧
          ¬ anchors_agree (this s').
Proof.
  split.
  - apply (invariants_checked _ [1%positive]). by vm_compute.
  - destruct (removeFirst_singleton one_element 1%positive)
      as (r & s' & Hrun & Hf & Hsz & Hl).
    { apply dllb_sound. by vm_compute. }
    exists r, s'. split_and!; try done.
    intros (_ & Hfl). rewrite Hl in Hfl. by apply Hfl in Hf.
Qed.

(** C4, as stated, fails: [remove(5)] on the list 1, 2 finds no node at that
    position and returns [undefined], which is not [false]. *)
Lemma remove_missing_position_is_undefined :
  remove 3 (ArgValue (VNum 5)) two_elements = Ret VUndefined two_elements ∧
  VUndefined ≠ VBool false.
Proof. split; [by vm_compute|done]. Qed.

(** C4 (amended).  On a list that satisfies the invariants and holds the
    nodes [ls]: when the argument resolves to no node, [remove] leaves the
    list as it is and returns [false] for a function argument and
    [undefined] for any other argument; when it resolves to position [k],
    [remove] returns the value stored in the node at [k], and the list then
    holds the nodes [ls] without that node, with size one less. *)
Theorem remove_result s ls fuel arg r :
  invariants s → chain (heap s) (first (this s)) ls →
  (length ls < fuel)%nat → resolves s ls arg r →
  match r with
  | None =>
      remove fuel arg s =
      Ret (match arg with
           | ArgFunction _ => VBool false
           | ArgValue _ => VUndefined
           end) s
  | Some k =>
      ∃ l nd s', ls !! k = Some l ∧ heap s !! l = Some nd ∧
        remove fuel arg s = Ret (value nd) s' ∧
        chain (heap s') (first (this s')) (delete k ls) ∧
        size (this s') = size (this s) - 1
  end.
Proof.
  intros Hinv Hc Hfuel Hres.
  pose proof (invariants_chain_dll _ _ Hinv Hc) as Hd.
  pose proof (remove_run _ _ _ _ _ Hd Hfuel Hres) as Hrun.
  destruct r as [k|]; [|done].
  destruct Hrun as (l & nd & s' & Hl & Hnd & Hrun & Hc' & _ & Hsz).
  by exists l, nd, s'.
Qed.

Lemma remove_result_witness :
  ∃ l nd s', [1; 2]%positive !! 1%nat = Some l ∧
    heap two_elements !! l = Some nd ∧
    remove 3 (ArgFunction (value_is (VNum 2))) two_elements = Ret (value nd) s' ∧
    chain (heap s') (first (this s')) (delete 1%nat [1; 2]%positive) ∧
    size (this s') = size (this two_elements) - 1.
Proof.
  apply (remove_result two_elements [1; 2]%positive 3
           (ArgFunction (value_is (VNum 2))) (Some 1%nat)).
  - apply (invariants_checked _ [1; 2]%positive). by vm_compute.
  - apply chain_checked. by vm_compute.
  - simpl. lia.
  - split.
    + exists 2%positive, (VBool true). split_and!; [done|by vm_compute|done].
    + intros j l Hj Hl. destruct j as [|j]; [|lia]. injection Hl as <-.
      exists (VBool false). split; [by vm_compute|done].
Defined.

(** C5 (code defect).  The claim: on every list, [add(v, p)] with [p]
    outside [0, size] returns an absent result and leaves the size and the
    contents as they are.  After [addLast(1); removeFirst(); removeLast()]
    the size is -1: [removeFirst] left [last] on the removed node, and
    [removeLast] removed that node again.  There [add(9, -1)], whose
    position is outside [0, size], takes the [position === this.size]
    branch: it returns a new node, which becomes [first] and [last], and
    sets the size to 0. *)
Theorem add_outside_range_inserts_at_negative_size :
  ∃ s, (addLast (VNum 1);; removeFirst;; removeLast) empty_state =
       Ret (VNum 1) s ∧
    size (this s) = -1 ∧
    ¬ (0 ≤ -1 ≤ size (this s)) ∧
    ∃ l s', add 1 (VNum 9) (VNum (-1)) s = Ret (VNode l) s' ∧
            (value <$> heap s' !! l) = Some (VNum 9) ∧
            first (this s') = Some l ∧ last (this s') = Some l ∧
            size (this s') = 0.
Proof.
  eexists. split; [by vm_compute|].
  split; [done|]. split; [cbn [size this]; lia|].
  eexists _, _. split; [by vm_compute|].
  split_and!; by vm_compute.
Qed.

(** X23.  On a list that satisfies the invariants, [get(i)] with [i] outside
    [0, size-1] and [add(v, p)] with [p] outside [0, size] complete normally
    with [undefined], and leave the whole state, hence the size and the
    contents, unchanged. *)
Theorem out_of_range_is_absent s fuel v i p :
  invariants s → size (this s) < Z.of_nat fuel →
  i < 0 ∨ size (this s) ≤ i →
  p < 0 ∨ size (this s) < p →
  get fuel (VNum i) s = Ret VUndefined s ∧
  add fuel v (VNum p) s = Ret VUndefined s.
Proof.
  intros (ls & Hd & Hsize)%invariants_size_dll Hfuel Hi Hp.
  rewrite Hsize in *. split.
  - eapply get_out_of_range; [apply Hd|lia|done].
  - unfold add. cbn [default0 strict_eq].
    destruct (Z.eqb_spec p 0) as [?|_]; [lia|]. mstep. rewrite Hsize.
    destruct (Z.eqb_spec p (Z.of_nat (length ls))) as [?|_]; [lia|].
    rewrite run_bind, (get_out_of_range _ ls); [done|apply Hd|lia|lia].
Qed.

Lemma out_of_range_is_absent_witness :
  get 3 (VNum 5) two_elements = Ret VUndefined two_elements ∧
  add 3 (VNum 9) (VNum 5) two_elements = Ret VUndefined two_elements.
Proof.
  apply out_of_range_is_absent.
  - apply (invariants_checked _ [1; 2]%positive). by vm_compute.
  - by vm_compute.
  - right. by vm_compute.
  - right. by vm_compute.
Defined.

(** C6.  On a list that satisfies the invariants, [addLast(v)] followed by
    [removeLast()] returns [v] and restores [first], [last] and [size]; the
    heap is the prior one with one more node, the detached one, so that
    every node of the list is as it was. *)
Theorem addLast_removeLast_roundtrip s v :
  invariants s →
  ∃ l s1 s2,
    addLast v s = Ret l s1 ∧ removeLast s1 = Ret v s2 ∧
    this s2 = this s ∧
    heap s !! l = None ∧
    heap s2 = <[l := {| value := v; previous := last (this s); next := None |}]> (heap s).
Proof.
  intros (ls & Hd)%invariants_dll.
  pose proof (dll_first _ _ Hd) as Hfirst.
  destruct s as [h [f la n]]. destruct Hd as (Hs & Hb & Hl & Hn).
  cbn [heap this first last size] in *.
  pose proof (fresh_heap h) as Hfr. set (l := fresh (dom h)) in *.
  exists l. unfold addLast. msteps. fold l. msteps.
  destruct (list_last ls) as [t|] eqn:Hlast.
  - apply last_Some in Hlast as (ls0 & ->).
    apply seg_app in Hs as (m & _ & -> & nd & Ht & Hnx).
    assert (l ≠ t) as Hlt by congruence.
    destruct (head (ls0 ++ [t])) as [x|] eqn:Hhead.
    2:{ apply head_None in Hhead. by destruct ls0. }
    subst f la. msteps.
    do 2 eexists. split; [reflexivity|].
    unfold removeLast. msteps.
    unfold value_of_anchor. erewrite run_get_value by lookup_tac.
    split; [reflexivity|].
    cbn [heap this first last size value]. split_and!; [f_equal; lia|done|].
    apply map_eq. intros k.
    destruct (decide (k = t)) as [->|Hkt].
    + rewrite lookup_insert_eq, lookup_insert_ne, Ht by done.
      destruct nd; simpl in *; by subst.
    + rewrite !(lookup_insert_ne _ t) by done.
      destruct (decide (k = l)) as [->|Hkl].
      * by rewrite !lookup_insert_eq.
      * by rewrite !lookup_insert_ne.
  - apply last_None in Hlast as ->. simpl in Hfirst. unfold chain in Hs.
    simpl in Hs. subst f la. msteps.
    do 2 eexists. split; [reflexivity|].
    unfold removeLast. msteps.
    unfold value_of_anchor. erewrite run_get_value by lookup_tac.
    split; [reflexivity|].
    cbn [heap this first last size value]. split_and!; [f_equal; lia|done|].
    apply map_eq. intros k. destruct (decide (k = l)) as [->|Hkl].
    + by rewrite !lookup_insert_eq.
    + by rewrite !lookup_insert_ne.
Qed.

Lemma addLast_removeLast_roundtrip_witness :
  ∃ l s1 s2,
    addLast (VNum 3) two_elements = Ret l s1 ∧
    removeLast s1 = Ret (VNum 3) s2 ∧
    this s2 = this two_elements ∧
    heap two_elements !! l = None ∧
    heap s2 =
      <[l := {| value := VNum 3; previous := last (this two_elements);
                next := None |}]> (heap two_elements).
Proof.
  apply addLast_removeLast_roundtrip.
  apply (invariants_checked _ [1; 2]%positive). by vm_compute.
Defined.

(** C7.  On a list whose nodes in forward order are [ls]: if the callback
    answers [undefined] on the nodes before position [k] and a value [r]
    other than [undefined] on the node at [k], called with these nodes and
    positions counted from 0, [find] returns [r] whatever the callback would
    do on later nodes; if it answers [undefined] on every node, [find]
    returns [undefined]; for a callback that leaves the state alone, [find]
    is the traversal [find_spec] of [ls] from position 0; [get] and
    [indexOf] are this traversal with their own callbacks. *)
Theorem find_is_forward_traversal s ls fuel cb :
  chain (heap s) (first (this s)) ls → (length ls < fuel)%nat →
  (∀ k l r, ls !! k = Some l →
     (∀ j l', (j < k)%nat → ls !! j = Some l' →
        cb l' (Z.of_nat j) s = Ret VUndefined s) →
     cb l (Z.of_nat k) s = Ret r s → r ≠ VUndefined →
     find fuel cb s = Ret r s) ∧
  ((∀ j l', ls !! j = Some l' → cb l' (Z.of_nat j) s = Ret VUndefined s) →
     find fuel cb s = Ret VUndefined s) ∧
  ((∀ l i r s', cb l i s = Ret r s' → s' = s) →
     find fuel cb s = find_spec cb ls 0 s) ∧
  (∀ index, get fuel index s = find_spec (get_cb (default0 index)) ls 0 s) ∧
  (∀ v, indexOf fuel v s = find_spec (indexOf_cb v) ls 0 s).
Proof.
  intros Hc Hfuel. split_and!.
  - intros k l r Hl Hbefore Hr Hdef.
    unfold find. rewrite run_bind, run_get_first.
    eapply find_loop_hit; [exact Hc|exact Hl| | |by rewrite Z.add_0_l|done].
    + apply lookup_lt_Some in Hl. lia.
    + intros j l' Hj Hjl. rewrite Z.add_0_l. by apply Hbefore.
  - intros Hall. unfold find. rewrite run_bind, run_get_first.
    eapply find_loop_miss; [exact Hc|done|].
    intros j l' Hjl. rewrite Z.add_0_l. by apply Hall.
  - intros Hpure. unfold find. rewrite run_bind, run_get_first.
    by apply find_loop_spec.
  - intros index. unfold get, find. rewrite run_bind, run_get_first.
    apply find_loop_spec; [|done|done].
    intros l i r s'. apply get_cb_nonmutating.
  - intros v. unfold indexOf, find. rewrite run_bind, run_get_first.
    apply find_loop_spec; [|done|done].
    intros l i r s'. apply indexOf_cb_nonmutating.
Qed.

Lemma find_is_forward_traversal_witness :
  find 3 (indexOf_cb (VNum 2)) two_elements = Ret (VNum 1) two_elements ∧
  find 3 (indexOf_cb (VNum 2)) two_elements =
    find_spec (indexOf_cb (VNum 2)) [1; 2]%positive 0 two_elements ∧
  get 3 (VNum 1) two_elements =
    find_spec (get_cb (VNum 1)) [1; 2]%positive 0 two_elements.
Proof.
  destruct (find_is_forward_traversal two_elements [1; 2]%positive 3
              (indexOf_cb (VNum 2)))
    as (Hhit & _ & Hspec & Hget & _).
  - apply chain_checked. by vm_compute.
  - simpl. lia.
  - split_and!.
    + apply (Hhit 1%nat 2%positive (VNum 1)); [done| |by vm_compute|done].
      intros j l' Hj Hl'. destruct j as [|j]; [|lia]. injection Hl' as <-.
      by vm_compute.
    + apply Hspec. intros l i r s'. apply indexOf_cb_nonmutating.
    + apply (Hget (VNum 1)).
Defined.

(** C8.  [remove] of a value that is not a function and does not parse as
    a non-zero integer is [removeByPosition(0)], on every list; on a list
    that satisfies the invariants and holds the nodes [ls] it returns
    [undefined] when [ls] is empty, and otherwise returns the value of the
    head while the list then holds the remaining nodes, with size one
    less. *)
Theorem remove_unparsable_removes_head s fuel v :
  (∀ n, parseInt v = VNum n → n = 0) →
  remove fuel (ArgValue v) s = removeByPosition fuel (VNum 0) s ∧
  ∀ ls, invariants s → chain (heap s) (first (this s)) ls →
    (length ls < fuel)%nat →
    match ls with
    | [] => remove fuel (ArgValue v) s = Ret VUndefined s
    | l :: ls' =>
        ∃ nd s', heap s !! l = Some nd ∧
          remove fuel (ArgValue v) s = Ret (value nd) s' ∧
          chain (heap s') (first (this s')) ls' ∧
          size (this s') = size (this s) - 1
    end.
Proof.
  intros Hparse.
  assert (js_or (parseInt v) (VNum 0) = VNum 0) as Hpos.
  { unfold js_or. destruct (parseInt_number v) as [->|(n & Hn)]; [done|].
    rewrite Hn. by rewrite (Hparse n Hn). }
  unfold remove. rewrite Hpos. split; [done|].
  intros ls Hinv Hc Hfuel.
  pose proof (invariants_chain_dll _ _ Hinv Hc) as Hd.
  destruct ls as [|l ls'].
  - apply (removeByPosition_out_of_range _ []); [done|done|]. simpl. lia.
  - destruct (seg_is_Some _ _ _ _ l Hc (list_elem_of_here _ _)) as (nd & Hnd).
    destruct (removeByPosition_in_range _ _ _ 0%nat l nd Hd Hfuel eq_refl Hnd)
      as (s' & Hrun & Hc' & _ & Hsz & _).
    by exists nd, s'.
Qed.

Lemma remove_unparsable_removes_head_witness :
  remove 3 (ArgValue (VStr "abc")) two_elements =
  removeByPosition 3 (VNum 0) two_elements ∧
  ∃ nd s', heap two_elements !! 1%positive = Some nd ∧
    remove 3 (ArgValue (VStr "abc")) two_elements = Ret (value nd) s' ∧
    chain (heap s') (first (this s')) [2%positive] ∧
    size (this s') = size (this two_elements) - 1.
Proof.
  destruct (remove_unparsable_removes_head two_elements 3 (VStr "abc"))
    as (Hsame & Hhead).
  - intros n Hn. vm_compute in Hn. discriminate.
  - split; [exact Hsame|].
    apply (Hhead [1; 2]%positive).
    + apply (invariants_checked _ [1; 2]%positive). by vm_compute.
    + apply chain_checked. by vm_compute.
    + simpl. lia.
Defined.

(** C9, as stated, fails: on a list whose only node stores [undefined],
    [removeFirst] and [removeLast] return [undefined], but on the empty list
    they return [null], and [undefined === null] is false: the two results
    differ. *)
Lemma removeFirst_undefined_differs_from_empty :
  removeFirst holds_undefined =
    Ret VUndefined
      {| heap := heap holds_undefined;
         this := {| first := None; last := Some 1%positive; size := 0 |} |} ∧
  removeLast holds_undefined =
    Ret VUndefined {| heap := heap holds_undefined; this := constructor |} ∧
  removeFirst empty_state = Ret VNull empty_state ∧
  removeLast empty_state = Ret VNull empty_state ∧
  strict_eq VUndefined VNull = false.
Proof. split_and!; by vm_compute. Qed.

(** C9 (amended).  On a list that satisfies the invariants and holds the
    nodes [ls]: on the empty list [removeFirst] and [removeLast] return
    [null] and change nothing; on a non-empty list [removeFirst]
    (respectively [removeLast]) returns the value stored in the first
    (respectively last) node, whatever it is, [undefined] and [null]
    included, while the list then holds the remaining nodes and the size is
    one less.  So a stored [null], not a stored [undefined], gives the
    result of the empty list. *)
Theorem remove_ends_return_stored_value s ls :
  invariants s → chain (heap s) (first (this s)) ls →
  (ls = [] → removeFirst s = Ret VNull s ∧ removeLast s = Ret VNull s) ∧
  (∀ l ls' nd, ls = l :: ls' → heap s !! l = Some nd →
     ∃ s', removeFirst s = Ret (value nd) s' ∧
           chain (heap s') (first (this s')) ls' ∧
           size (this s') = size (this s) - 1) ∧
  (∀ l ls' nd, ls = ls' ++ [l] → heap s !! l = Some nd →
     ∃ s', removeLast s = Ret (value nd) s' ∧
           chain (heap s') (first (this s')) ls' ∧
           size (this s') = size (this s) - 1).
Proof.
  intros Hinv Hc. pose proof (invariants_chain_dll _ _ Hinv Hc) as Hd.
  split_and!.
  - intros ->. split; [by apply removeFirst_nil|by apply removeLast_nil].
  - intros l ls' nd -> Hnd.
    destruct (removeFirst_cons _ _ _ _ Hd Hnd) as (s' & Hrun & Hc' & _ & Hsz & _).
    by exists s'.
  - intros l ls' nd -> Hnd.
    destruct (removeLast_snoc _ _ _ _ Hd Hnd) as (s' & Hrun & Hd' & _).
    exists s'. split; [done|]. split; [apply Hd'|].
    rewrite (dll_size _ _ Hd'), (dll_size _ _ Hd), length_app. simpl. lia.
Qed.

Lemma remove_ends_return_stored_value_witness :
  (removeFirst empty_state = Ret VNull empty_state ∧
   removeLast empty_state = Ret VNull empty_state) ∧
  (∃ s', removeFirst holds_null = Ret VNull s' ∧
         chain (heap s') (first (this s')) [] ∧
         size (this s') = size (this holds_null) - 1) ∧
  (∃ s', removeLast holds_null = Ret VNull s' ∧
         chain (heap s') (first (this s')) [] ∧
         size (this s') = size (this holds_null) - 1) ∧
  (∃ s', removeFirst holds_undefined = Ret VUndefined s' ∧
         chain (heap s') (first (this s')) [] ∧
         size (this s') = size (this holds_undefined) - 1).
Proof.
  split; [|split_and!].
  - apply (remove_ends_return_stored_value empty_state []); [|done|done].
    apply (invariants_checked _ []). by vm_compute.
  - destruct (remove_ends_return_stored_value holds_null [1%positive])
      as (_ & Hfirst & _).
    + apply (invariants_checked _ [1%positive]). by vm_compute.
    + apply chain_checked. by vm_compute.
    + apply (Hfirst 1%positive [] (Node_constructor VNull));
        [done|by vm_compute].
  - destruct (remove_ends_return_stored_value holds_null [1%positive])
      as (_ & _ & Hlast).
    + apply (invariants_checked _ [1%positive]). by vm_compute.
    + apply chain_checked. by vm_compute.
    + apply (Hlast 1%positive [] (Node_constructor VNull));
        [done|by vm_compute].
  - destruct (remove_ends_return_stored_value holds_undefined [1%positive])
      as (_ & Hfirst & _).
    + apply (invariants_checked _ [1%positive]). by vm_compute.
    + apply chain_checked. by vm_compute.
    + apply (Hfirst 1%positive [] (Node_constructor VUndefined));
        [done|by vm_compute].
Defined.

(** C10.  [get], [indexOf], and [find] with a callback that does not change
    the state, leave the state (the three fields of the list and every node)
    as it was whenever they return; and they do return on a list that
    satisfies the invariants, given fuel beyond its size and, for [find], a
    callback that answers on the live nodes. *)
Theorem queries_leave_state_unchanged fuel q s :
  query_nonmutating q →
  (∀ r s', run_query fuel q s = Ret r s' → s' = s) ∧
  (invariants s → size (this s) < Z.of_nat fuel → query_answers q s →
   ∃ r, run_query fuel q s = Ret r s).
Proof.
  intros Hpure%query_callback_nonmutating. rewrite run_query_find. split.
  - intros r s'. unfold find. rewrite run_bind, run_get_first.
    by apply find_loop_frame.
  - intros (ls & Hd & Hsize)%invariants_size_dll Hfuel Hq.
    unfold find. rewrite run_bind, run_get_first.
    rewrite (find_loop_spec _ s ls).
    + apply find_spec_returns. apply query_callback_answers; [apply Hd|done].
    + intros l i r s'. apply Hpure.
    + apply Hd.
    + lia.
Qed.

Lemma queries_leave_state_unchanged_witness :
  (∀ r s', run_query 3 (QFind (value_is (VNum 2))) two_elements = Ret r s' →
           s' = two_elements) ∧
  ∃ r, run_query 3 (QFind (value_is (VNum 2))) two_elements =
       Ret r two_elements.
Proof.
  destruct (queries_leave_state_unchanged 3 (QFind (value_is (VNum 2)))
              two_elements (value_is_nonmutating (VNum 2)))
    as (Hframe & Hreturns).
  split; [exact Hframe|]. apply Hreturns.
  - apply (invariants_checked _ [1; 2]%positive). by vm_compute.
  - by vm_compute.
  - intros l i Hlive.
    apply (seg_reach _ _ [1; 2]%positive l) in Hlive;
      [|apply chain_checked; by vm_compute].
    exists (VBool (bool_decide (l = 2%positive))).
    apply elem_of_cons in Hlive as [->|Hlive]; [by vm_compute|].
    apply list_elem_of_singleton in Hlive as ->. by vm_compute.
Defined.

(** ** Further properties: the list as a sequence of values *)

Section sequences.
Implicit Types (h : gmap loc Node) (s : state) (ls : list loc) (vs : list jsval).

Lemma values_length h ls vs : values h ls = Some <$> vs → length ls = length vs.
Proof.
  intros H. apply (f_equal length) in H. unfold values in H.
  by rewrite !length_fmap in H.
Qed.

Lemma values_lookup h ls vs k l :
  values h ls = Some <$> vs → ls !! k = Some l →
  ∃ nd, h !! l = Some nd ∧ vs !! k = Some (value nd).
Proof.
  intros H Hl. apply (f_equal (λ x, x !! k)) in H. unfold values in H.
  rewrite !list_lookup_fmap, Hl in H. simpl in H.
  destruct (h !! l) as [nd|]; simpl in H.
  - exists nd. split; [done|]. destruct (vs !! k); simpl in H; congruence.
  - destruct (vs !! k); simpl in H; congruence.
Qed.

Lemma values_ext h h' ls :
  (∀ l, l ∈ ls → value <$> h' !! l = value <$> h !! l) →
  values h' ls = values h ls.
Proof.
  intros H. unfold values. apply list_eq. intros i.
  rewrite !list_lookup_fmap. destruct (ls !! i) as [l|] eqn:Hl; [|done].
  simpl. f_equal. apply H. by eapply list_elem_of_lookup_2.
Qed.

Lemma values_same h h' ls : same_values h h' → values h' ls = values h ls.
Proof. intros H. apply values_ext. intros l _. apply H. Qed.

Lemma values_app h l1 l2 : values h (l1 ++ l2) = values h l1 ++ values h l2.
Proof. unfold values. by rewrite fmap_app. Qed.

Lemma values_take h ls vs k :
  values h ls = Some <$> vs → values h (take k ls) = Some <$> take k vs.
Proof. intros H. unfold values in *. by rewrite !fmap_take, H. Qed.

Lemma values_drop h ls vs k :
  values h ls = Some <$> vs → values h (drop k ls) = Some <$> drop k vs.
Proof. intros H. unfold values in *. by rewrite !fmap_drop, H. Qed.

Lemma values_delete h ls vs k :
  values h ls = Some <$> vs → values h (delete k ls) = Some <$> delete k vs.
Proof.
  intros H. unfold values in *. rewrite !delete_take_drop, !fmap_app.
  rewrite !fmap_take, !fmap_drop. by rewrite H.
Qed.

Lemma holds_dll s vs :
  holds s vs → ∃ ls, dll s ls ∧ values (heap s) ls = Some <$> vs.
Proof.
  intros (Hinv & ls & Hc & Hv). exists ls. split; [|done].
  by apply invariants_chain_dll.
Qed.

Lemma dll_holds s ls vs :
  dll s ls → values (heap s) ls = Some <$> vs → holds s vs.
Proof.
  intros Hd Hv. split; [by eapply dll_invariants|]. exists ls. split; [apply Hd|done].
Qed.

Lemma holds_size s vs : holds s vs → size (this s) = Z.of_nat (length vs).
Proof.
  intros (ls & Hd & Hv)%holds_dll.
  by rewrite (dll_size _ _ Hd), (values_length _ _ _ Hv).
Qed.

(** A checker for [holds], to settle it on concrete states. *)
Lemma holds_checked s ls vs :
  dllb s ls = true → values (heap s) ls = Some <$> vs → holds s vs.
Proof. intros Hd%dllb_sound Hv. by eapply dll_holds. Qed.
End sequences.

Section additions.
Implicit Types (h : gmap loc Node) (s : state) (ls : list loc) (vs : list jsval).

Lemma values_kept h h' ls l :
  (∀ k, k ≠ l → value <$> h' !! k = value <$> h !! k) → l ∉ ls →
  values h' ls = values h ls.
Proof.
  intros Hk Hl. apply values_ext. intros k Hin. apply Hk. by intros ->.
Qed.

(** [addFirst] and [addLast] on a well-formed list, by values. *)
Lemma addFirst_values s ls vs v :
  dll s ls → values (heap s) ls = Some <$> vs →
  ∃ l s', addFirst v s = Ret l s' ∧ heap s !! l = None ∧ dll s' (l :: ls) ∧
          values (heap s') (l :: ls) = Some <$> (v :: vs).
Proof.
  intros Hd Hv.
  destruct (addFirst_dll _ _ v Hd) as (l & s' & Hrun & Hfr & Hd' & Hl & Hkept).
  exists l, s'. split_and!; try done.
  pose proof (seg_fresh _ _ _ _ _ Hfr (proj1 Hd)) as Hnotin.
  change (values (heap s') (l :: ls))
    with ((value <$> heap s' !! l) :: values (heap s') ls).
  rewrite fmap_cons, Hl. f_equal. rewrite <- Hv. by apply values_kept with l.
Qed.

Lemma addLast_values s ls vs v :
  dll s ls → values (heap s) ls = Some <$> vs →
  ∃ l s', addLast v s = Ret l s' ∧ heap s !! l = None ∧ dll s' (ls ++ [l]) ∧
          values (heap s') (ls ++ [l]) = Some <$> (vs ++ [v]).
Proof.
  intros Hd Hv.
  destruct (addLast_dll _ _ v Hd) as (l & s' & Hrun & Hfr & Hd' & Hl & Hkept).
  exists l, s'. split_and!; try done.
  pose proof (seg_fresh _ _ _ _ _ Hfr (proj1 Hd)) as Hnotin.
  rewrite values_app, fmap_app. f_equal.
  - rewrite <- Hv. by apply values_kept with l.
  - change (values (heap s') [l]) with [value <$> heap s' !! l]. by rewrite Hl.
Qed.

(** X1.  On a list that satisfies the invariants and shows the values [vs],
    [addFirst(v)] returns a node that did not exist before, makes it
    [first], and leaves a list that satisfies the invariants and shows
    [v :: vs], with size one more. *)
Theorem addFirst_prepends s vs v :
  holds s vs →
  ∃ l s', addFirst v s = Ret l s' ∧ heap s !! l = None ∧
          first (this s') = Some l ∧ holds s' (v :: vs) ∧
          size (this s') = size (this s) + 1.
Proof.
  intros (ls & Hd & Hv)%holds_dll.
  destruct (addFirst_values _ _ _ v Hd Hv) as (l & s' & Hrun & Hfr & Hd' & Hv').
  exists l, s'. split_and!; try done.
  - by rewrite (dll_first _ _ Hd').
  - by eapply dll_holds.
  - rewrite (dll_size _ _ Hd'), (dll_size _ _ Hd). simpl length. lia.
Qed.

(** X2.  On a list that satisfies the invariants and shows the values [vs],
    [addLast(v)] returns a node that did not exist before, makes it [last],
    and leaves a list that satisfies the invariants and shows [vs ++ [v]],
    with size one more. *)
Theorem addLast_appends s vs v :
  holds s vs →
  ∃ l s', addLast v s = Ret l s' ∧ heap s !! l = None ∧
          last (this s') = Some l ∧ holds s' (vs ++ [v]) ∧
          size (this s') = size (this s) + 1.
Proof.
  intros (ls & Hd & Hv)%holds_dll.
  destruct (addLast_values _ _ _ v Hd Hv) as (l & s' & Hrun & Hfr & Hd' & Hv').
  exists l, s'. split_and!; try done.
  - destruct Hd' as (_ & _ & -> & _). by rewrite last_snoc.
  - by eapply dll_holds.
  - rewrite (dll_size _ _ Hd'), (dll_size _ _ Hd), length_app. simpl. lia.
Qed.

(** X3.  Any run of [addFirst] and [addLast] calls on a list that satisfies
    the invariants completes, keeps the invariants, adds the number of calls
    to the size, and leaves the values that the same run of prepending and
    appending makes of the sequence. *)
Theorem additions_build_the_sequence ops : ∀ s vs,
  holds s vs →
  ∃ s', run_additions ops s = Ret () s' ∧ holds s' (added ops vs) ∧
        size (this s') = size (this s) + Z.of_nat (length ops).
Proof.
  induction ops as [|[v|v] ops IH]; intros s vs Hh.
  - exists s. split; [done|]. split; [done|]. simpl. lia.
  - pose proof Hh as (ls & Hd & Hv)%holds_dll.
    destruct (addFirst_values _ _ _ v Hd Hv) as (l & s1 & Hrun & _ & Hd1 & Hv1).
    destruct (IH s1 (v :: vs) (dll_holds _ _ _ Hd1 Hv1)) as (s' & Hrest & Hh' & Hsz).
    exists s'. split; [|split; [done|]].
    + simpl. by mrun Hrun.
    + rewrite Hsz, (dll_size _ _ Hd1), (dll_size _ _ Hd). simpl length. lia.
  - pose proof Hh as (ls & Hd & Hv)%holds_dll.
    destruct (addLast_values _ _ _ v Hd Hv) as (l & s1 & Hrun & _ & Hd1 & Hv1).
    destruct (IH s1 (vs ++ [v]) (dll_holds _ _ _ Hd1 Hv1)) as (s' & Hrest & Hh' & Hsz).
    exists s'. split; [|split; [done|]].
    + simpl. by mrun Hrun.
    + rewrite Hsz, (dll_size _ _ Hd1), (dll_size _ _ Hd), length_app. simpl length. lia.
Qed.
End additions.

Section positions_and_values.
Implicit Types (h : gmap loc Node) (s : state) (ls : list loc) (vs : list jsval).

(** X4.  On a list that satisfies the invariants, [add(v, 0)] is
    [addFirst(v)] and [add(v, size)] is [addLast(v)], also on the empty list,
    where [size] is 0 and the code takes the [addFirst] branch. *)
Theorem add_at_the_ends s fuel v :
  invariants s →
  add fuel v (VNum 0) s = (l ← addFirst v; mret (VNode l)) s ∧
  add fuel v (VNum (size (this s))) s = (l ← addLast v; mret (VNode l)) s.
Proof.
  intros (ls & Hd)%invariants_dll. split; [done|].
  pose proof (dll_first _ _ Hd) as Hfirst.
  destruct s as [h [f la n]]. destruct Hd as (_ & _ & Hl & Hn).
  cbn [heap this first last size] in *.
  unfold add. cbn [default0 strict_eq].
  destruct (Z.eqb_spec n 0) as [->|Hne].
  - destruct ls; [|simpl in Hn; lia]. simpl in Hfirst, Hl. subst f la.
    unfold addFirst, addLast. msteps. do 2 f_equal.
    by rewrite insert_insert_eq.
  - mstep. by rewrite Z.eqb_refl.
Qed.

Lemma take_drop_pair (a : list loc) p rest :
  take (S (length a)) (a ++ p :: rest) = a ++ [p] ∧
  drop (S (length a)) (a ++ p :: rest) = rest.
Proof.
  induction a as [|x a [IH1 IH2]]; simpl; [done|]. by rewrite IH1, IH2.
Qed.

(** [add] strictly inside the list, by position. *)
Lemma add_inside s ls fuel v k :
  dll s ls → (length ls < fuel)%nat → (0 < k < length ls)%nat →
  ∃ l s', heap s !! l = None ∧
    add fuel v (VNum (Z.of_nat k)) s = Ret (VNode l) s' ∧
    chain (heap s') (first (this s')) (take k ls ++ l :: drop k ls) ∧
    size (this s') = size (this s) + 1 ∧
    (value <$> heap s' !! l) = Some v ∧
    (∀ j, j ≠ l → value <$> heap s' !! j = value <$> heap s !! j).
Proof.
  intros Hd Hfuel Hk. destruct k as [|k]; [lia|].
  destruct (lookup_lt_is_Some_2 ls k ltac:(lia)) as (p & Hp).
  destruct (lookup_lt_is_Some_2 ls (S k) ltac:(lia)) as (c & Hc).
  assert (ls = take k ls ++ p :: c :: drop (S (S k)) ls) as Hsplit.
  { rewrite <- (drop_S ls c (S k) Hc). by rewrite (take_drop_middle ls k p Hp). }
  assert (length (take k ls) = k) as Hla by (rewrite length_take; lia).
  revert Hsplit Hla. generalize (take k ls) (drop (S (S k)) ls).
  intros a b -> <-. clear Hp Hc Hk.
  destruct (add_middle _ _ _ _ _ _ v Hd Hfuel)
    as (l & ndc & s' & Hfr & _ & Hrun & Hch & Hsz & _ & _ & _ & Hl & Hkept).
  exists l, s'. destruct (take_drop_pair a p (c :: b)) as [-> ->].
  split_and!; try done.
  - by rewrite <- (assoc_L (++)).
  - by rewrite Hl.
Qed.

(** X5.  On a list that satisfies the invariants and shows [vs], [add(v, k)]
    with [0 < k < size] returns a new node and leaves a list whose forward
    traversal shows [v] inserted before position [k], with size one more. *)
Theorem add_inside_inserts_forward s vs fuel v k :
  holds s vs → (length vs < fuel)%nat → (0 < k < length vs)%nat →
  ∃ l s', add fuel v (VNum (Z.of_nat k)) s = Ret (VNode l) s' ∧
          heap s !! l = None ∧
          shows s' (take k vs ++ v :: drop k vs) ∧
          size (this s') = size (this s) + 1.
Proof.
  intros (ls & Hd & Hv)%holds_dll Hfuel Hk.
  pose proof (values_length _ _ _ Hv) as Hlen.
  destruct (add_inside _ _ fuel v k Hd ltac:(lia) ltac:(lia))
    as (l & s' & Hfr & Hrun & Hch & Hsz & Hl & Hkept).
  exists l, s'. split_and!; try done.
  exists (take k ls ++ l :: drop k ls). split; [done|].
  pose proof (seg_fresh _ _ _ _ _ Hfr (proj1 Hd)) as Hnotin.
  rewrite values_app.
  change (values (heap s') (l :: drop k ls))
    with ((value <$> heap s' !! l) :: values (heap s') (drop k ls)).
  rewrite Hl, fmap_app, fmap_cons.
  rewrite (values_kept (heap s) _ (take k ls) l), (values_kept (heap s) _ (drop k ls) l);
    try done.
  - by rewrite (values_take _ _ vs), (values_drop _ _ vs).
  - intros Hin. by apply Hnotin, (subseteq_drop k ls).
  - intros Hin. by apply Hnotin, (subseteq_take k ls).
Qed.
End positions_and_values.

Section lookups.
Implicit Types (h : gmap loc Node) (s : state) (ls : list loc) (vs : list jsval).

(** [get] at a position in range, by values. *)
Lemma get_value_at s ls vs fuel k v :
  chain (heap s) (first (this s)) ls → values (heap s) ls = Some <$> vs →
  (length vs < fuel)%nat → vs !! k = Some v →
  ∃ l nd, ls !! k = Some l ∧ get fuel (VNum (Z.of_nat k)) s = Ret (VNode l) s ∧
          heap s !! l = Some nd ∧ value nd = v.
Proof.
  intros Hc Hv Hfuel Hk.
  pose proof (values_length _ _ _ Hv) as Hlen.
  destruct (lookup_lt_is_Some_2 ls k) as (l & Hl).
  { apply lookup_lt_Some in Hk. lia. }
  destruct (values_lookup _ _ _ _ _ Hv Hl) as (nd & Hnd & Hvk).
  exists l, nd. split_and!; [done| |done|congruence].
  apply (get_in_range _ ls); [done| |done]. apply lookup_lt_Some in Hk. lia.
Qed.

(** X6.  When a forward traversal shows [vs] and [vs] has the value [v] at
    index [k], [get(k)] returns a node that stores [v], and changes
    nothing. *)
Theorem get_returns_the_node_at_index s vs fuel k v :
  shows s vs → (length vs < fuel)%nat → vs !! k = Some v →
  ∃ l nd, get fuel (VNum (Z.of_nat k)) s = Ret (VNode l) s ∧
          heap s !! l = Some nd ∧ value nd = v.
Proof.
  intros (ls & Hc & Hv) Hfuel Hk.
  destruct (get_value_at _ _ _ _ _ _ Hc Hv Hfuel Hk) as (l & nd & _ & ? & ? & ?).
  by exists l, nd.
Qed.

(** What [index_of] finds, and what it leaves behind. *)
Lemma index_of_Some v vs k :
  index_of v vs = Some k →
  ∃ x, vs !! k = Some x ∧ strict_eq x v = true ∧
       ∀ j y, (j < k)%nat → vs !! j = Some y → strict_eq y v = false.
Proof.
  revert k. induction vs as [|x vs IH]; intros k; simpl; [done|].
  destruct (strict_eq x v) eqn:Hx.
  - intros [= <-]. exists x. split_and!; [done|done|]. intros j y Hj. lia.
  - destruct (index_of v vs) as [k'|]; simpl; [|done]. intros [= <-].
    destruct (IH k' eq_refl) as (x' & Hk' & Hx' & Hbefore).
    exists x'. split_and!; [done|done|].
    intros [|j] y Hj; simpl; [by intros [= <-]|]. apply Hbefore. lia.
Qed.

Lemma index_of_None v vs :
  index_of v vs = None → ∀ j y, vs !! j = Some y → strict_eq y v = false.
Proof.
  induction vs as [|x vs IH]; simpl; [done|].
  destruct (strict_eq x v) eqn:Hx; [done|].
  destruct (index_of v vs); simpl; [done|]. intros _ [|j] y; simpl.
  - by intros [= <-].
  - by apply IH.
Qed.

(** [indexOf], by values. *)
Lemma indexOf_values s ls vs fuel v :
  chain (heap s) (first (this s)) ls → values (heap s) ls = Some <$> vs →
  (length vs < fuel)%nat →
  indexOf fuel v s =
  Ret (match index_of v vs with
       | Some k => VNum (Z.of_nat k)
       | None => VUndefined
       end) s.
Proof.
  intros Hc Hv Hfuel. pose proof (values_length _ _ _ Hv) as Hlen.
  assert (∀ j l, ls !! j = Some l →
            ∃ nd y, heap s !! l = Some nd ∧ vs !! j = Some y ∧ value nd = y)
    as Hnodes.
  { intros j l Hl. destruct (values_lookup _ _ _ _ _ Hv Hl) as (nd & ? & ?).
    by exists nd, (value nd). }
  unfold indexOf, find. rewrite run_bind, run_get_first.
  destruct (index_of v vs) as [k|] eqn:Hidx.
  - destruct (index_of_Some _ _ _ Hidx) as (x & Hk & Hx & Hbefore).
    destruct (lookup_lt_is_Some_2 ls k) as (l & Hl).
    { apply lookup_lt_Some in Hk. lia. }
    eapply find_loop_hit; [exact Hc|exact Hl| | | |done].
    + apply lookup_lt_Some in Hl. lia.
    + intros j l' Hj Hl'. destruct (Hnodes j l' Hl') as (nd & y & Hnd & Hy & Hval).
      unfold indexOf_cb. rewrite run_bind, (run_get_value _ _ _ Hnd), Hval.
      by rewrite (Hbefore j y Hj Hy).
    + destruct (Hnodes k l Hl) as (nd & y & Hnd & Hy & Hval).
      unfold indexOf_cb. rewrite run_bind, (run_get_value _ _ _ Hnd), Hval.
      simplify_eq. rewrite Hx. by rewrite Z.add_0_l.
  - eapply find_loop_miss; [exact Hc|lia|].
    intros j l' Hl'. destruct (Hnodes j l' Hl') as (nd & y & Hnd & Hy & Hval).
    unfold indexOf_cb. rewrite run_bind, (run_get_value _ _ _ Hnd), Hval.
    by rewrite (index_of_None _ _ Hidx j y Hy).
Qed.

(** X7.  When a forward traversal shows [vs], [indexOf(v)] returns the least
    index whose value is [=== v], and [undefined] if there is none, and
    changes nothing. *)
Theorem indexOf_finds_first_match s vs fuel v :
  shows s vs → (length vs < fuel)%nat →
  indexOf fuel v s =
  Ret (match index_of v vs with
       | Some k => VNum (Z.of_nat k)
       | None => VUndefined
       end) s.
Proof. intros (ls & Hc & Hv) Hfuel. by eapply indexOf_values. Qed.

(** X8.  If [indexOf(v)] returns the number [k] then [get(k)] returns a node
    whose value is [=== v]. *)
Theorem indexOf_then_get s vs fuel v k :
  shows s vs → (length vs < fuel)%nat →
  indexOf fuel v s = Ret (VNum k) s →
  ∃ l nd, get fuel (VNum k) s = Ret (VNode l) s ∧
          heap s !! l = Some nd ∧ strict_eq (value nd) v = true.
Proof.
  intros (ls & Hc & Hv) Hfuel Hidx.
  rewrite (indexOf_values _ _ _ _ _ Hc Hv Hfuel) in Hidx.
  destruct (index_of v vs) as [k'|] eqn:Hk'; [|done].
  injection Hidx as <-.
  destruct (index_of_Some _ _ _ Hk') as (x & Hx & Heq & _).
  destruct (get_value_at _ _ _ _ _ _ Hc Hv Hfuel Hx) as (l & nd & _ & ? & ? & ?).
  exists l, nd. split_and!; [done|done|congruence].
Qed.

(** X9.  [indexOf(NaN)] returns [undefined] on every list, even one that
    stores [NaN]: the comparison is [===]. *)
Theorem indexOf_never_finds_NaN s vs fuel :
  shows s vs → (length vs < fuel)%nat →
  indexOf fuel VNaN s = Ret VUndefined s.
Proof.
  intros (ls & Hc & Hv) Hfuel.
  rewrite (indexOf_values _ _ _ _ _ Hc Hv Hfuel).
  assert (index_of VNaN vs = None) as ->; [|done].
  clear. induction vs as [|x vs IH]; simpl; [done|].
  rewrite IH. by destruct x.
Qed.
End lookups.

Section removing.
Implicit Types (h : gmap loc Node) (s : state) (ls : list loc) (vs : list jsval).

Lemma values_cons_inv h ls v vs :
  values h ls = Some <$> (v :: vs) →
  ∃ l nd ls', ls = l :: ls' ∧ h !! l = Some nd ∧ value nd = v ∧
              values h ls' = Some <$> vs.
Proof.
  destruct ls as [|l ls']; [done|]. intros [= Hl Hv].
  destruct (h !! l) as [nd|] eqn:Hnd; [|done]. injection Hl as Hl.
  by exists l, nd, ls'.
Qed.

Lemma values_snoc_inv h ls vs v :
  values h ls = Some <$> (vs ++ [v]) →
  ∃ l nd ls', ls = ls' ++ [l] ∧ h !! l = Some nd ∧ value nd = v ∧
              values h ls' = Some <$> vs.
Proof.
  intros Hv. pose proof (values_length _ _ _ Hv) as Hlen.
  rewrite length_app in Hlen. simpl in Hlen.
  destruct (last_is_Some ls) as [_ Hsome].
  destruct Hsome as (l & Hl); [intros ->; simpl in Hlen; lia|].
  apply last_Some in Hl as (ls' & ->).
  rewrite values_app, fmap_app in Hv.
  apply app_inj_2 in Hv as [Hv Hl]; [|done].
  injection Hl as Hl. destruct (h !! l) as [nd|] eqn:Hnd; [|done].
  injection Hl as Hl. by exists l, nd, ls'.
Qed.

(** X10.  On a list that satisfies the invariants and shows [vs], with the
    value [v] at index [k], [removeByPosition(k)] returns [v] and leaves a
    doubly linked list that shows [vs] without that element, with size one
    less. *)
Theorem removeByPosition_removes_at s vs fuel k v :
  holds s vs → (length vs < fuel)%nat → vs !! k = Some v →
  ∃ s', removeByPosition fuel (VNum (Z.of_nat k)) s = Ret v s' ∧
        shows s' (delete k vs) ∧ doubly_linked s' ∧
        size (this s') = size (this s) - 1.
Proof.
  intros (ls & Hd & Hv)%holds_dll Hfuel Hk.
  pose proof (values_length _ _ _ Hv) as Hlen.
  destruct (lookup_lt_is_Some_2 ls k) as (l & Hl).
  { apply lookup_lt_Some in Hk. lia. }
  destruct (values_lookup _ _ _ _ _ Hv Hl) as (nd & Hnd & Hvk).
  destruct (removeByPosition_in_range _ _ fuel _ _ _ Hd ltac:(lia) Hl Hnd)
    as (s' & Hrun & Hc & Hb & Hsz & Hsame).
  exists s'. split_and!; try done.
  - rewrite Hrun. congruence.
  - exists (delete k ls). split; [done|].
    rewrite (values_same _ _ _ Hsame). by apply values_delete.
  - by eapply links_doubly_linked.
Qed.

Lemma default0_idempotent v : default0 (default0 v) = default0 v.
Proof. by destruct v. Qed.

(** [get] with an index that is not a number. *)
Lemma get_not_a_number s ls fuel index :
  chain (heap s) (first (this s)) ls → (length ls < fuel)%nat →
  (∀ i, default0 index ≠ VNum i) →
  get fuel index s = Ret VUndefined s.
Proof.
  intros Hc Hfuel Hnot. unfold get, find. rewrite run_bind, run_get_first.
  eapply find_loop_miss; [exact Hc|done|].
  intros j l' _. unfold get_cb.
  destruct (default0 index) eqn:Hi; try done. by destruct (Hnot n).
Qed.

(** X11.  On a list that satisfies the invariants, [removeByPosition] of a
    position that names no node (an integer out of range, or a value that is
    not a number) returns [undefined] and changes nothing. *)
Theorem removeByPosition_without_a_node s fuel position :
  invariants s → size (this s) < Z.of_nat fuel →
  names_no_node (size (this s)) position →
  removeByPosition fuel position s = Ret VUndefined s.
Proof.
  intros (ls & Hd & Hsize)%invariants_size_dll Hfuel Hno.
  unfold names_no_node in Hno.
  destruct (default0 position) as [| | |i| | |] eqn:Hpos;
    try (unfold removeByPosition; rewrite Hpos;
         rewrite run_bind, <- Hpos, (get_not_a_number _ ls);
         [rewrite Hpos; cbn [strict_eq truthy]; by mstep
         |apply Hd|lia|rewrite default0_idempotent, Hpos; done]).
  assert (removeByPosition fuel position s = removeByPosition fuel (VNum i) s)
    as ->.
  { unfold removeByPosition. by rewrite Hpos. }
  apply (removeByPosition_out_of_range _ ls); [done|lia|lia].
Qed.

(** X12.  On a list that satisfies the invariants, [get] and [add] with a
    position that is not a number, such as the string "1", return
    [undefined] and change nothing: positions are compared with [===]. *)
Theorem positions_are_compared_strictly s fuel v position :
  invariants s → size (this s) < Z.of_nat fuel →
  (∀ i, default0 position ≠ VNum i) →
  get fuel position s = Ret VUndefined s ∧
  add fuel v position s = Ret VUndefined s.
Proof.
  intros (ls & Hd & Hsize)%invariants_size_dll Hfuel Hnot.
  assert (get fuel position s = Ret VUndefined s) as Hget.
  { apply (get_not_a_number _ ls); [apply Hd|lia|done]. }
  split; [done|]. unfold add.
  assert (get fuel (default0 position) s = Ret VUndefined s) as Hget'.
  { apply (get_not_a_number _ ls); [apply Hd|lia|].
    by rewrite default0_idempotent. }
  destruct (default0 position) as [| | |i| | |] eqn:Hpos;
    try (cbn [strict_eq]; mstep; by mrun Hget').
  by destruct (Hnot i).
Qed.

(** X13.  On a list that satisfies the invariants and shows [vs ++ [v]],
    [removeLast()] returns [v] and leaves a list that satisfies the
    invariants and shows [vs], with size one less. *)
Theorem removeLast_drops_the_last s vs v :
  holds s (vs ++ [v]) →
  ∃ s', removeLast s = Ret v s' ∧ holds s' vs ∧
        size (this s') = size (this s) - 1.
Proof.
  intros (ls & Hd & Hv)%holds_dll.
  destruct (values_snoc_inv _ _ _ _ Hv) as (l & nd & ls' & -> & Hnd & Hval & Hv').
  destruct (removeLast_snoc _ _ _ _ Hd Hnd) as (s' & Hrun & Hd' & Hsame).
  exists s'. split_and!.
  - by rewrite Hrun, Hval.
  - eapply dll_holds; [done|]. by rewrite (values_same _ _ _ Hsame).
  - rewrite (dll_size _ _ Hd'), (dll_size _ _ Hd), length_app. simpl. lia.
Qed.

(** [removeFirst] on a list of two nodes or more keeps it well formed. *)
Lemma removeFirst_cons_cons s l k ls nd :
  dll s (l :: k :: ls) → heap s !! l = Some nd →
  ∃ s', removeFirst s = Ret (value nd) s' ∧ dll s' (k :: ls) ∧
        same_values (heap s) (heap s').
Proof.
  intros Hd Hnd.
  destruct (removeFirst_cons _ _ _ _ Hd Hnd) as (s' & Hrun & Hc & Hb & Hsz & Hl & Hsame).
  exists s'. split_and!; try done. split_and!; try done.
  - rewrite Hl. by destruct Hd as (_ & _ & -> & _).
  - rewrite Hsz, (dll_size _ _ Hd). simpl length. lia.
Qed.

(** X14.  On a list of two elements or more that satisfies the invariants,
    [removeFirst()] returns the first value and leaves a list that satisfies
    the invariants and shows the remaining values, with size one less. *)
Theorem removeFirst_drops_the_first s v w vs :
  holds s (v :: w :: vs) →
  ∃ s', removeFirst s = Ret v s' ∧ holds s' (w :: vs) ∧
        size (this s') = size (this s) - 1.
Proof.
  intros (ls & Hd & Hv)%holds_dll.
  destruct (values_cons_inv _ _ _ _ Hv) as (l & nd & ls' & -> & Hnd & Hval & Hv').
  destruct (values_cons_inv _ _ _ _ Hv') as (k & ndk & ls'' & -> & _ & _ & _).
  destruct (removeFirst_cons_cons _ _ _ _ _ Hd Hnd) as (s' & Hrun & Hd' & Hsame).
  exists s'. split_and!.
  - by rewrite Hrun, Hval.
  - eapply dll_holds; [done|]. by rewrite (values_same _ _ _ Hsame).
  - rewrite (dll_size _ _ Hd'), (dll_size _ _ Hd). simpl length. lia.
Qed.
End removing.

Section ends.
Implicit Types (h : gmap loc Node) (s : state) (ls : list loc) (vs : list jsval).

(** The state that [removeFirst] leaves of a one-element list. *)
Lemma removeFirst_singleton_state s l nd :
  dll s [l] → heap s !! l = Some nd →
  removeFirst s =
  Ret (value nd)
      {| heap := heap s;
         this := {| first := None; last := Some l; size := 0 |} |} ∧
  previous nd = None ∧ next nd = None.
Proof.
  destruct s as [h [f la n]]. intros (Hs & Hb & Hl & Hn) Hnd.
  cbn [heap this first last size] in *.
  destruct Hs as (-> & nd' & Hnd' & Hnx). destruct Hb as ((nd2 & Hnd2 & Hpr) & _).
  simplify_eq. simpl in Hnx. split; [|done].
  unfold removeFirst. msteps. rewrite Hnx. msteps.
  unfold value_of_anchor. by erewrite run_get_value by lookup_tac.
Qed.

(** X15.  On a one-element list that satisfies the invariants,
    [removeFirst()] followed by [removeLast()] returns the element both
    times and leaves [size] at -1: [removeFirst] left [last] on the removed
    node. *)
Theorem removeFirst_then_removeLast_returns_twice s v :
  holds s [v] →
  ∃ s1 s2, removeFirst s = Ret v s1 ∧ removeLast s1 = Ret v s2 ∧
           size (this s2) = -1 ∧
           first (this s2) = None ∧ last (this s2) = None.
Proof.
  intros (ls & Hd & Hv)%holds_dll.
  destruct (values_cons_inv _ _ _ _ Hv) as (l & nd & ls' & -> & Hnd & Hval & Hv').
  destruct ls'; [|done].
  destruct (removeFirst_singleton_state _ _ _ Hd Hnd) as (Hrun & Hpr & Hnx).
  rewrite Hrun, Hval. eexists _, _. split; [reflexivity|].
  unfold removeLast. msteps. rewrite Hpr. msteps.
  unfold value_of_anchor. erewrite run_get_value by lookup_tac.
  by rewrite Hval.
Qed.

(** X16.  After [removeFirst()] has emptied a one-element list, [addLast(w)]
    and [addFirst(w)] each leave a list that satisfies the invariants and
    shows [w]: both test [this.first], not [this.last]. *)
Theorem additions_repair_the_stale_anchor s v w :
  holds s [v] →
  ∃ s1, removeFirst s = Ret v s1 ∧
        (∃ l s2, addLast w s1 = Ret l s2 ∧ holds s2 [w]) ∧
        (∃ l s2, addFirst w s1 = Ret l s2 ∧ holds s2 [w]).
Proof.
  intros (ls & Hd & Hv)%holds_dll.
  destruct (values_cons_inv _ _ _ _ Hv) as (l & nd & ls' & -> & Hnd & Hval & Hv').
  destruct ls'; [|done].
  destruct (removeFirst_singleton_state _ _ _ Hd Hnd) as (Hrun & Hpr & Hnx).
  rewrite Hrun, Hval. eexists. split; [reflexivity|].
  set (n := fresh (dom (heap s))).
  split.
  - exists n. unfold addLast. msteps. fold n. msteps.
    eexists. split; [reflexivity|].
    apply (dll_holds _ [n]).
    + split_and!; cbn [heap this first last size]; try done.
      * split; [done|]. eexists. split; [lookup_tac|done].
      * split; [|done]. eexists. split; [lookup_tac|done].
    + unfold values. cbn [heap]. simpl. by rewrite lookup_insert_eq.
  - exists n. unfold addFirst. msteps. fold n. msteps.
    eexists. split; [reflexivity|].
    apply (dll_holds _ [n]).
    + split_and!; cbn [heap this first last size]; try done.
      * split; [done|]. eexists. split; [lookup_tac|done].
      * split; [|done]. eexists. split; [lookup_tac|done].
    + unfold values. cbn [heap]. simpl. by rewrite lookup_insert_eq.
Qed.

(** X17.  On a list that satisfies the invariants and shows [vs], as many
    [shift()] calls as there are elements return [vs] in order and leave
    [first == null] and [size == 0]. *)
Theorem shift_returns_in_arrival_order vs : ∀ s,
  holds s vs →
  ∃ s', times (length vs) shift s = Ret vs s' ∧
        first (this s') = None ∧ size (this s') = 0.
Proof.
  induction vs as [|v vs IH]; intros s Hh.
  - exists s. split; [done|].
    pose proof (holds_size _ _ Hh) as Hsz. destruct Hh as (((Hzero & _) & _) & _).
    split; [apply Hzero; exact Hsz|exact Hsz].
  - pose proof Hh as (ls & Hd & Hv)%holds_dll.
    destruct (values_cons_inv _ _ _ _ Hv) as (l & nd & ls' & -> & Hnd & Hval & Hv').
    destruct vs as [|w vs].
    + destruct ls'; [|done].
      destruct (removeFirst_singleton_state _ _ _ Hd Hnd) as (Hrun & _).
      exists {| heap := heap s;
                this := {| first := None; last := Some l; size := 0 |} |}.
      split; [|done]. cbn [length times]. unfold shift.
      mrun Hrun. by rewrite Hval.
    + destruct (values_cons_inv _ _ _ _ Hv') as (k & ndk & ls'' & -> & _ & _ & _).
      destruct (removeFirst_cons_cons _ _ _ _ _ Hd Hnd) as (s1 & Hrun & Hd1 & Hsame).
      destruct (IH s1) as (s' & Hrest & Hfin).
      { eapply dll_holds; [done|]. by rewrite (values_same _ _ _ Hsame). }
      exists s'. split; [|done].
      change (length (v :: w :: vs)) with (S (length (w :: vs))).
      cbn [times]. unfold shift in *. mrun Hrun. mrun Hrest. by rewrite Hval.
Qed.

(** X18.  On a list that satisfies the invariants and shows [vs], as many
    [pop()] calls as there are elements return [vs] in reverse order and
    leave an empty list that satisfies the invariants. *)
Theorem pop_returns_in_reverse_order vs : ∀ s,
  holds s vs →
  ∃ s', times (length vs) pop s = Ret (reverse vs) s' ∧ holds s' [].
Proof.
  induction vs as [|v vs IH] using rev_ind; intros s Hh.
  - by exists s.
  - pose proof Hh as (ls & Hd & Hv)%holds_dll.
    destruct (values_snoc_inv _ _ _ _ Hv) as (l & nd & ls' & -> & Hnd & Hval & Hv').
    destruct (removeLast_snoc _ _ _ _ Hd Hnd) as (s1 & Hrun & Hd1 & Hsame).
    destruct (IH s1) as (s' & Hrest & Hfin).
    { eapply dll_holds; [done|]. by rewrite (values_same _ _ _ Hsame). }
    exists s'. split; [|done].
    rewrite length_app, reverse_snoc. simpl length.
    replace (length vs + 1)%nat with (S (length vs)) by lia.
    cbn [times]. unfold pop in *. mrun Hrun. mrun Hrest. by rewrite Hval.
Qed.
End ends.

Section iteration.
Implicit Types (h : gmap loc Node) (s : state) (ls : list loc) (vs : list jsval).

Lemma numbered_cons p l ls : numbered p (l :: ls) = (l, p) :: numbered (p + 1) ls.
Proof.
  unfold numbered. rewrite imap_cons. f_equal; [f_equal; lia|].
  apply imap_ext. intros i x _. simpl. f_equal. lia.
Qed.

Lemma numbered_fst p ls : (numbered p ls).*1 = ls.
Proof.
  revert p. induction ls as [|l ls IH]; intros p; [done|].
  rewrite numbered_cons. simpl. by rewrite IH.
Qed.

(** A generator suspended on a node yields the nodes after it. *)
Lemma spread_loop_suspended s rest : ∀ fuel l nd p,
  heap s !! l = Some nd → seg (heap s) (next nd) rest None →
  (length rest < fuel)%nat →
  spread_loop fuel (GenSuspended l p) s = Ret (numbered (p + 1) rest) s.
Proof.
  induction rest as [|x rest IH]; intros fuel l nd p Hnd Hs Hfuel;
    (destruct fuel as [|fuel]; [simpl in Hfuel; lia|]); simpl in Hs.
  - simpl. rewrite !run_bind, (run_get_next _ _ _ Hnd), Hs. done.
  - destruct Hs as (Hnx & ndx & Hx & Hs).
    simpl. rewrite !run_bind, (run_get_next _ _ _ Hnd), Hnx. simpl.
    rewrite run_bind, (IH fuel x ndx (p + 1) Hx Hs); [|simpl in Hfuel; lia].
    by rewrite numbered_cons.
Qed.

Lemma spread_chain s ls fuel :
  chain (heap s) (first (this s)) ls → (length ls < fuel)%nat →
  spread fuel s = Ret (numbered 0 ls) s.
Proof.
  intros Hc Hfuel. destruct fuel as [|fuel]; [lia|].
  unfold spread. destruct ls as [|l ls]; unfold chain in Hc; simpl in Hc.
  - simpl. by rewrite !run_bind, run_get_first, Hc.
  - destruct Hc as (Hf & nd & Hnd & Hs).
    simpl. rewrite !run_bind, run_get_first, Hf. simpl.
    rewrite run_bind, (spread_loop_suspended _ ls fuel l nd 0 Hnd Hs);
      [|simpl in Hfuel; lia].
    by rewrite numbered_cons.
Qed.

(** X19.  Iterating a list whose nodes in forward order are [ls] yields each
    node of [ls] once, in order, paired with its position counted from 0,
    and changes nothing. *)
Theorem spread_yields_every_node_in_order s ls fuel :
  chain (heap s) (first (this s)) ls → (length ls < fuel)%nat →
  spread fuel s = Ret (imap (λ i l, (l, Z.of_nat i)) ls) s.
Proof.
  intros Hc Hfuel. by rewrite (spread_chain _ _ _ Hc Hfuel).
Qed.

Lemma chain_after s ls k l :
  chain (heap s) (first (this s)) ls → ls !! k = Some l →
  ∃ nd, heap s !! l = Some nd ∧ seg (heap s) (next nd) (drop (S k) ls) None.
Proof.
  intros Hc Hl. rewrite <- (take_drop_middle ls k l Hl) in Hc.
  apply seg_app in Hc as (m & _ & _ & nd & Hnd & Hs). by exists nd.
Qed.

(** X20.  A generator suspended on the node at position [k] of a list that
    satisfies the invariants, when [addLast(v)] is called before it is
    resumed, yields the nodes after [k] and then the appended node, at the
    positions that follow [k]. *)
Theorem iteration_sees_a_later_append s ls fuel k l v :
  invariants s → chain (heap s) (first (this s)) ls →
  ls !! k = Some l → (length ls < fuel)%nat →
  ∃ n s1, addLast v s = Ret n s1 ∧
    spread_loop fuel (GenSuspended l (Z.of_nat k)) s1 =
    Ret (imap (λ i x, (x, Z.of_nat (S k + i))) (drop (S k) ls ++ [n])) s1.
Proof.
  intros Hinv Hc Hl Hfuel.
  pose proof (invariants_chain_dll _ _ Hinv Hc) as Hd.
  destruct (addLast_dll _ _ v Hd) as (n & s1 & Hrun & _ & Hd1 & _).
  exists n, s1. split; [done|].
  destruct (chain_after s1 (ls ++ [n]) k l (proj1 Hd1)) as (nd & Hnd & Hs).
  { by apply lookup_app_l_Some. }
  pose proof (lookup_lt_Some _ _ _ Hl) as Hk.
  rewrite drop_app_le in Hs by lia.
  rewrite (spread_loop_suspended _ _ fuel l nd _ Hnd Hs).
  - f_equal. apply imap_ext. intros i x _. simpl. f_equal. lia.
  - rewrite length_app, length_drop. simpl. lia.
Qed.

Section rendering.
Variable inspect : jsval → string.

Lemma inspect_parts_values s : ∀ parts vs,
  values (heap s) parts.*1 = Some <$> vs →
  inspect_parts inspect parts s = Ret (inspect <$> vs) s.
Proof.
  induction parts as [|[l p] parts IH]; intros vs Hv.
  - by destruct vs.
  - destruct vs as [|v vs]; [done|].
    change (((l, p) :: parts).*1) with (l :: parts.*1) in Hv.
    destruct (values_cons_inv _ _ _ _ Hv) as (l' & nd & ls' & Heq & Hnd & Hval & Hv').
    injection Heq as <- <-.
    simpl. mrun (run_get_value _ _ _ Hnd). mrun (IH vs Hv'). by rewrite Hval.
Qed.

(** X21.  When a forward traversal shows [vs], [toString()] returns the
    inspected values of [vs] joined by [" -> "], the empty string for the
    empty list, and changes nothing. *)
Theorem toString_joins_the_inspected_values s vs fuel :
  shows s vs → (length vs < fuel)%nat →
  toString inspect fuel s = Ret (String.concat " -> " (inspect <$> vs)) s.
Proof.
  intros (ls & Hc & Hv) Hfuel. pose proof (values_length _ _ _ Hv) as Hlen.
  unfold toString. mrun (spread_chain _ ls fuel Hc ltac:(lia)).
  assert (inspect_parts inspect (numbered 0 ls) s = Ret (inspect <$> vs) s)
    as Hparts by (apply inspect_parts_values; by rewrite numbered_fst).
  by mrun Hparts.
Qed.
End rendering.
End iteration.

Section first_occurrence.
Implicit Types (s : state) (ls : list loc) (vs : list jsval).

(** X22.  On a list that satisfies the invariants and shows [vs], [remove]
    with the predicate [node => node.value === v] returns and removes the
    first element that is [=== v], leaving a doubly linked list with size
    one less; when no element is, it returns [false] and changes nothing. *)
Theorem remove_takes_the_first_occurrence s vs fuel v :
  holds s vs → (length vs < fuel)%nat →
  match index_of v vs with
  | Some k =>
      ∃ x s', vs !! k = Some x ∧ strict_eq x v = true ∧
        remove fuel (ArgFunction (value_is v)) s = Ret x s' ∧
        shows s' (delete k vs) ∧ doubly_linked s' ∧
        size (this s') = size (this s) - 1
  | None => remove fuel (ArgFunction (value_is v)) s = Ret (VBool false) s
  end.
Proof.
  intros (ls & Hd & Hv)%holds_dll Hfuel.
  pose proof (values_length _ _ _ Hv) as Hlen. pose proof (proj1 Hd) as Hc.
  assert (∀ j l, ls !! j = Some l →
            ∃ y, vs !! j = Some y ∧
                 value_is v l (Z.of_nat j) s = Ret (VBool (strict_eq y v)) s)
    as Hcb.
  { intros j l Hl. destruct (values_lookup _ _ _ _ _ Hv Hl) as (nd & Hnd & Hy).
    exists (value nd). split; [done|].
    unfold value_is. by rewrite run_bind, (run_get_value _ _ _ Hnd). }
  destruct (index_of v vs) as [k|] eqn:Hidx.
  - destruct (index_of_Some _ _ _ Hidx) as (x & Hk & Hx & Hbefore).
    destruct (lookup_lt_is_Some_2 ls k) as (l & Hl).
    { apply lookup_lt_Some in Hk. lia. }
    destruct (values_lookup _ _ _ _ _ Hv Hl) as (nd & Hnd & Hvk).
    assert (resolves s ls (ArgFunction (value_is v)) (Some k)) as Hres.
    { split.
      - destruct (Hcb k l Hl) as (y & Hy & Hrun). simplify_eq.
        exists l, (VBool (strict_eq (value nd) v)).
        split_and!; [done|exact Hrun|exact Hx].
      - intros j l' Hj Hl'. destruct (Hcb j l' Hl') as (y & Hy & Hrun).
        exists (VBool (strict_eq y v)). split; [done|]. simpl. by eapply Hbefore. }
    destruct (removeByPosition_in_range _ _ fuel _ _ _ Hd ltac:(lia) Hl Hnd)
      as (s' & Hrun & Hc' & Hb' & Hsz & Hsame).
    exists x, s'. split_and!; try done.
    + unfold remove. mrun (find_remove_cb_hit _ _ fuel _ _ Hc ltac:(lia) Hres).
      cbn [strict_eq negb]. rewrite Hrun. congruence.
    + exists (delete k ls). split; [done|].
      rewrite (values_same _ _ _ Hsame). by apply values_delete.
    + by eapply links_doubly_linked.
  - assert (resolves s ls (ArgFunction (value_is v)) None) as Hres.
    { intros j l Hl. destruct (Hcb j l Hl) as (y & Hy & Hrun).
      exists (VBool (strict_eq y v)). split; [done|]. simpl.
      by eapply index_of_None. }
    unfold remove. by mrun (find_remove_cb_miss _ _ fuel _ Hc ltac:(lia) Hres).
Qed.
End first_occurrence.

(** ** The properties above, on the lists of the examples *)

Lemma holds_two_elements : holds two_elements [VNum 1; VNum 2].
Proof. apply (holds_checked _ [1; 2]%positive); by vm_compute. Qed.

Lemma holds_three_elements : holds three_elements [VNum 1; VNum 2; VNum 3].
Proof. apply (holds_checked _ [1; 2; 3]%positive); by vm_compute. Qed.

Lemma holds_one_element : holds one_element [VNum 1].
Proof. apply (holds_checked _ [1%positive]); by vm_compute. Qed.

Lemma addFirst_prepends_witness :
  ∃ l s', addFirst (VNum 0) two_elements = Ret l s' ∧
          heap two_elements !! l = None ∧
          first (this s') = Some l ∧ holds s' [VNum 0; VNum 1; VNum 2] ∧
          size (this s') = size (this two_elements) + 1.
Proof. apply addFirst_prepends, holds_two_elements. Defined.

Lemma addLast_appends_witness :
  ∃ l s', addLast (VNum 3) two_elements = Ret l s' ∧
          heap two_elements !! l = None ∧
          last (this s') = Some l ∧ holds s' [VNum 1; VNum 2; VNum 3] ∧
          size (this s') = size (this two_elements) + 1.
Proof. apply (addLast_appends two_elements [VNum 1; VNum 2]), holds_two_elements. Defined.

Lemma add_at_the_ends_witness :
  add 1 (VNum 7) (VNum 0) empty_state =
    (l ← addFirst (VNum 7); mret (VNode l)) empty_state ∧
  add 1 (VNum 7) (VNum (size (this empty_state))) empty_state =
    (l ← addLast (VNum 7); mret (VNode l)) empty_state.
Proof.
  apply add_at_the_ends. apply (invariants_checked _ []). by vm_compute.
Defined.

Lemma add_inside_inserts_forward_witness :
  ∃ l s', add 4 (VNum 9) (VNum (Z.of_nat 1)) three_elements = Ret (VNode l) s' ∧
          heap three_elements !! l = None ∧
          shows s' [VNum 1; VNum 9; VNum 2; VNum 3] ∧
          size (this s') = size (this three_elements) + 1.
Proof.
  apply (add_inside_inserts_forward three_elements [VNum 1; VNum 2; VNum 3] 4
           (VNum 9) 1).
  - apply holds_three_elements.
  - simpl. lia.
  - simpl. lia.
Defined.

Lemma get_returns_the_node_at_index_witness :
  ∃ l nd, get 3 (VNum (Z.of_nat 1)) two_elements = Ret (VNode l) two_elements ∧
          heap two_elements !! l = Some nd ∧ value nd = VNum 2.
Proof.
  apply (get_returns_the_node_at_index two_elements [VNum 1; VNum 2] 3 1).
  - apply holds_two_elements.
  - simpl. lia.
  - done.
Defined.

Lemma indexOf_finds_first_match_witness :
  indexOf 4 (VNum 2) three_elements = Ret (VNum 1) three_elements.
Proof.
  apply (indexOf_finds_first_match three_elements [VNum 1; VNum 2; VNum 3] 4 (VNum 2)).
  - apply holds_three_elements.
  - simpl. lia.
Defined.

Lemma indexOf_then_get_witness :
  ∃ l nd, get 4 (VNum 2) three_elements = Ret (VNode l) three_elements ∧
          heap three_elements !! l = Some nd ∧
          strict_eq (value nd) (VNum 3) = true.
Proof.
  apply (indexOf_then_get three_elements [VNum 1; VNum 2; VNum 3] 4 (VNum 3) 2).
  - apply holds_three_elements.
  - simpl. lia.
  - by vm_compute.
Defined.

Lemma indexOf_never_finds_NaN_witness :
  indexOf 2 VNaN (of_values [VNaN]) = Ret VUndefined (of_values [VNaN]).
Proof.
  apply (indexOf_never_finds_NaN _ [VNaN]).
  - exists [1%positive]. split; [|by vm_compute].
    apply chain_checked. by vm_compute.
  - simpl. lia.
Defined.

Lemma removeByPosition_removes_at_witness :
  ∃ s', removeByPosition 4 (VNum (Z.of_nat 1)) three_elements = Ret (VNum 2) s' ∧
        shows s' [VNum 1; VNum 3] ∧ doubly_linked s' ∧
        size (this s') = size (this three_elements) - 1.
Proof.
  apply (removeByPosition_removes_at three_elements [VNum 1; VNum 2; VNum 3] 4 1).
  - apply holds_three_elements.
  - simpl. lia.
  - done.
Defined.

Lemma removeByPosition_without_a_node_witness :
  removeByPosition 3 (VStr "1") two_elements = Ret VUndefined two_elements.
Proof.
  apply removeByPosition_without_a_node.
  - apply (invariants_checked _ [1; 2]%positive). by vm_compute.
  - by vm_compute.
  - exact I.
Defined.

Lemma positions_are_compared_strictly_witness :
  get 3 (VStr "1") two_elements = Ret VUndefined two_elements ∧
  add 3 (VNum 9) (VStr "1") two_elements = Ret VUndefined two_elements.
Proof.
  apply positions_are_compared_strictly.
  - apply (invariants_checked _ [1; 2]%positive). by vm_compute.
  - by vm_compute.
  - intros i. discriminate.
Defined.

Lemma removeLast_drops_the_last_witness :
  ∃ s', removeLast two_elements = Ret (VNum 2) s' ∧ holds s' [VNum 1] ∧
        size (this s') = size (this two_elements) - 1.
Proof. apply (removeLast_drops_the_last two_elements [VNum 1]), holds_two_elements. Defined.

Lemma removeFirst_drops_the_first_witness :
  ∃ s', removeFirst two_elements = Ret (VNum 1) s' ∧ holds s' [VNum 2] ∧
        size (this s') = size (this two_elements) - 1.
Proof. apply removeFirst_drops_the_first, holds_two_elements. Defined.

Lemma removeFirst_then_removeLast_returns_twice_witness :
  ∃ s1 s2, removeFirst one_element = Ret (VNum 1) s1 ∧
           removeLast s1 = Ret (VNum 1) s2 ∧
           size (this s2) = -1 ∧
           first (this s2) = None ∧ last (this s2) = None.
Proof. apply removeFirst_then_removeLast_returns_twice, holds_one_element. Defined.

Lemma additions_repair_the_stale_anchor_witness :
  ∃ s1, removeFirst one_element = Ret (VNum 1) s1 ∧
        (∃ l s2, addLast (VNum 5) s1 = Ret l s2 ∧ holds s2 [VNum 5]) ∧
        (∃ l s2, addFirst (VNum 5) s1 = Ret l s2 ∧ holds s2 [VNum 5]).
Proof. apply additions_repair_the_stale_anchor, holds_one_element. Defined.

Lemma shift_returns_in_arrival_order_witness :
  ∃ s', times 3 shift three_elements = Ret [VNum 1; VNum 2; VNum 3] s' ∧
        first (this s') = None ∧ size (this s') = 0.
Proof.
  apply (shift_returns_in_arrival_order [VNum 1; VNum 2; VNum 3]),
    holds_three_elements.
Defined.

Lemma pop_returns_in_reverse_order_witness :
  ∃ s', times 3 pop three_elements = Ret [VNum 3; VNum 2; VNum 1] s' ∧
        holds s' [].
Proof.
  apply (pop_returns_in_reverse_order [VNum 1; VNum 2; VNum 3]),
    holds_three_elements.
Defined.

Lemma additions_build_the_sequence_witness :
  ∃ s', run_additions [AddFirst (VNum 0); AddLast (VNum 3)] two_elements =
          Ret () s' ∧
        holds s' [VNum 0; VNum 1; VNum 2; VNum 3] ∧
        size (this s') = size (this two_elements) + Z.of_nat 2.
Proof.
  apply (additions_build_the_sequence [AddFirst (VNum 0); AddLast (VNum 3)]
           two_elements [VNum 1; VNum 2]), holds_two_elements.
Defined.

Lemma spread_yields_every_node_in_order_witness :
  spread 3 two_elements =
  Ret [(1%positive, 0); (2%positive, 1)] two_elements.
Proof.
  apply (spread_yields_every_node_in_order two_elements [1; 2]%positive 3).
  - apply chain_checked. by vm_compute.
  - simpl. lia.
Defined.

Lemma iteration_sees_a_later_append_witness :
  ∃ n s1, addLast (VNum 3) two_elements = Ret n s1 ∧
    spread_loop 3 (GenSuspended 1%positive (Z.of_nat 0)) s1 =
    Ret (imap (λ i x, (x, Z.of_nat (1 + i))) ([2%positive] ++ [n])) s1.
Proof.
  apply (iteration_sees_a_later_append two_elements [1; 2]%positive 3 0%nat).
  - apply (invariants_checked _ [1; 2]%positive). by vm_compute.
  - apply chain_checked. by vm_compute.
  - done.
  - simpl. lia.
Defined.

Lemma toString_joins_the_inspected_values_witness :
  toString example_inspect 3 two_elements = Ret "1 -> 2"%string two_elements.
Proof.
  apply (toString_joins_the_inspected_values example_inspect two_elements
           [VNum 1; VNum 2] 3).
  - apply holds_two_elements.
  - simpl. lia.
Defined.

Lemma remove_takes_the_first_occurrence_witness :
  ∃ x s', [VNum 1; VNum 2; VNum 3] !! 1%nat = Some x ∧
    strict_eq x (VNum 2) = true ∧
    remove 4 (ArgFunction (value_is (VNum 2))) three_elements = Ret x s' ∧
    shows s' (delete 1%nat [VNum 1; VNum 2; VNum 3]) ∧ doubly_linked s' ∧
    size (this s') = size (this three_elements) - 1.
Proof.
  apply (remove_takes_the_first_occurrence three_elements
           [VNum 1; VNum 2; VNum 3] 4 (VNum 2)).
  - apply holds_three_elements.
  - simpl. lia.
Defined.
